(** * Range tree over dual points: a shallow embedding of [range_tree.py]

    The development follows the Python source closely.

    - [Point] and [Node] are the two value classes of the source.  The
      coordinates are the Python integers of the program's entry point,
      modelled as [Z].
    - A tree node is a Python dict or [None]; the two dict layouts (primary
      nodes and nodes of the nested y-tree) are the inductive types
      [tree_x] and [tree_y].
    - [list.sort(key=...)] and [sorted(..., key=...)] are the stable,
      ascending sort of the Python library, modelled by [list_sort].
    - The builders sort the list object they receive in place.  A builder is
      therefore a computation in the monad [M]: its state is the content of
      the list object bound to [points], and it also collects what is printed.
    - [scipy.spatial.Voronoi] is an external service: a parameter of the
      development which either returns a diagram or raises. *)

From Stdlib Require Import String Ascii DecimalString DecimalZ.
From Stdlib Require Import ZArith List Lia Permutation Sorted Bool Arith.
Import ListNotations.

Set Implicit Arguments.

(** ** Data model *)

Record Point : Type := mkPoint { x : Z; y : Z }.

Record Node : Type := mkNode { feature_point : Point; real_point : Point }.

(** The two sort keys, [lambda p: p.feature_point.x] and
    [lambda p: p.feature_point.y]. *)
Definition key_x (p : Node) : Z := x (feature_point p).
Definition key_y (p : Node) : Z := y (feature_point p).

(** ** The library sort

    Python's sort is stable and ascending in the key.  [insert_by] places an
    element in front of the first element whose key is not smaller, so that
    elements with equal keys keep their relative order. *)

Fixpoint insert_by (key : Node -> Z) (a : Node) (l : list Node) : list Node :=
  match l with
  | [] => [a]
  | b :: l' => if (key a <=? key b)%Z then a :: l else b :: insert_by key a l'
  end.

Definition list_sort (key : Node -> Z) (l : list Node) : list Node :=
  fold_right (insert_by key) [] l.

(** [sorted_by key l]: the keys are non-decreasing along [l]. *)
Definition sorted_by (key : Node -> Z) (l : list Node) : Prop :=
  StronglySorted (fun a b => (key a <= key b)%Z) l.

(** ** Outcomes of a computation *)

Inductive result (A : Type) : Type :=
| Ok (a : A)
| Raised (exc : string)
| OutOfFuel.

Arguments Raised {A} exc.
Arguments OutOfFuel {A}.

Section RangeTree.

(** The external geometry service.  [Voronoi] either returns a diagram or
    raises an exception (a degenerate input makes Qhull fail). *)
Variable Diagram : Type.
Variable Exception : Type.
Variable Voronoi : list (Z * Z) -> Diagram + Exception.

(** What the program prints and plots. *)
Inductive event : Type :=
| PrintVoronoiFailed (points : list Node) (e : Exception)
| PrintVisualizingAll
| PrintVisualizing (points : list Node)
| PlotVoronoi (vor : Diagram) (real_points : list (Z * Z))
              (query_point : option Node)
| PrintNoVoronoi (points : list Node).

(** Nodes of the nested tree on y: the dict built by [_build_tree_on_y]. *)
Inductive tree_y : Type :=
| NoneY
| DictY (point : Node) (left right : tree_y) (voronoi : option Diagram).

(** Nodes of the primary tree: the dict built by [_build_tree_on_x]. *)
Inductive tree_x : Type :=
| NoneX
| DictX (point : Node) (left right : tree_x) (range_tree_on_y : tree_y)
        (points_sorted_by_y : list Node) (voronoi : option Diagram).

(** ** The builder monad

    The state is the content of the list object the builder was called
    with; the output collects the events printed so far. *)

Definition M (A : Type) : Type :=
  list Node -> result (A * list Node * list event).

Definition ret {A} (a : A) : M A := fun pts => Ok (a, pts, []).

Definition bind {A B} (m : M A) (k : A -> M B) : M B :=
  fun pts =>
    match m pts with
    | Ok (a, pts', out) =>
        match k a pts' with
        | Ok (b, pts'', out') => Ok (b, pts'', out ++ out')
        | Raised e => Raised e
        | OutOfFuel => OutOfFuel
        end
    | Raised e => Raised e
    | OutOfFuel => OutOfFuel
    end.

Notation "v <- m ;; k" := (bind m (fun v => k))
  (at level 61, m at next level, right associativity).
Notation "m ;;; k" := (bind m (fun _ => k))
  (at level 61, right associativity).

(** [points] read as a value. *)
Definition get_points : M (list Node) := fun pts => Ok (pts, pts, []).

(** [points.sort(key=key)]: the list object is sorted in place. *)
Definition sort_in_place (key : Node -> Z) : M unit :=
  fun pts => Ok (tt, list_sort key pts, []).

(** [points[i]], which raises [IndexError] out of range. *)
Definition getitem (i : nat) : M Node :=
  fun pts =>
    match nth_error pts i with
    | Some p => Ok (p, pts, [])
    | None => Raised "IndexError"%string
    end.

(** [print(...)]. *)
Definition print (e : event) : M unit := fun pts => Ok (tt, pts, [e]).

(** A call [f(l)] on a fresh list object [l] (a slice is a copy): the
    callee works on its own list, the caller's list is untouched. *)
Definition call_fresh {A} (f : M A) (l : list Node) : M A :=
  fun pts =>
    match f l with
    | Ok (a, _, out) => Ok (a, pts, out)
    | Raised e => Raised e
    | OutOfFuel => OutOfFuel
    end.

(** ** [_compute_voronoi] *)

Definition real_points_as_float (points : list Node) : list (Z * Z) :=
  map (fun p => (x (real_point p), y (real_point p))) points.

Definition _compute_voronoi : M (option Diagram) :=
  points <- get_points ;;
  if length points <? 4 then ret None
  else
    match Voronoi (real_points_as_float points) with
    | inl vor => ret (Some vor)
    | inr e => print (PrintVoronoiFailed points e) ;;; ret None
    end.

(** ** [_build_tree_on_y] and [_build_tree_on_x]

    The recursion of the source is on slices of the sorted list; the model
    recurses on a fuel, and [RangeTree2D] below supplies enough of it. *)

Fixpoint _build_tree_on_y (fuel : nat) : M tree_y :=
  match fuel with
  | O => fun _ => OutOfFuel
  | S fuel' =>
      points <- get_points ;;
      match points with
      | [] => ret NoneY
      | _ :: _ =>
          sort_in_place key_y ;;;
          points <- get_points ;;
          let mid := length points / 2 in
          point <- getitem mid ;;
          left <- call_fresh (_build_tree_on_y fuel') (firstn mid points) ;;
          right <- call_fresh (_build_tree_on_y fuel')
                              (skipn (mid + 1) points) ;;
          voronoi <- _compute_voronoi ;;
          ret (DictY point left right voronoi)
      end
  end.

Fixpoint _build_tree_on_x (fuel : nat) : M tree_x :=
  match fuel with
  | O => fun _ => OutOfFuel
  | S fuel' =>
      points <- get_points ;;
      match points with
      | [] => ret NoneX
      | _ :: _ =>
          sort_in_place key_x ;;;
          points <- get_points ;;
          let mid := length points / 2 in
          point <- getitem mid ;;
          left <- call_fresh (_build_tree_on_x fuel') (firstn mid points) ;;
          right <- call_fresh (_build_tree_on_x fuel')
                              (skipn (mid + 1) points) ;;
          range_tree_on_y <- _build_tree_on_y fuel ;;
          points <- get_points ;;
          let points_sorted_by_y := list_sort key_y points in
          voronoi <- _compute_voronoi ;;
          ret (DictX point left right range_tree_on_y points_sorted_by_y
                     voronoi)
      end
  end.

(** [RangeTree2D(points)]: the constructor stores the root.  The outcome
    also gives the final content of the caller's list and the output. *)
Definition RangeTree2D (points : list Node)
  : result (tree_x * list Node * list event) :=
  _build_tree_on_x (S (length points)) points.

(** ** [_query_tree], [_visualize_voronoi] and [query]

    [visited_nodes] is a list object that [_query_tree] appends to; the
    model passes its content in and returns its content after the call. *)

Fixpoint _query_tree (node : tree_x) (query_point : Node)
    (visited_nodes : list tree_x) : list tree_x :=
  match node with
  | NoneX => visited_nodes
  | DictX point left_ right_ _ _ _ =>
      let visited_nodes := visited_nodes ++ [node] in
      if (key_x query_point <=? key_x point)%Z
      then _query_tree left_ query_point visited_nodes
      else _query_tree right_ query_point visited_nodes
  end.

Definition _visualize_voronoi (vor : option Diagram) (points : list Node)
    (query_point : option Node) : list event :=
  let real_points := real_points_as_float points in
  match vor with
  | Some vor =>
      [PrintVisualizing points; PlotVoronoi vor real_points query_point]
  | None => [PrintNoVoronoi points]
  end.

(** The fields [node['point']], [node['voronoi']] and
    [node['points_sorted_by_y']]; the source reads them on dicts only. *)
Definition node_point (node : tree_x) : option Node :=
  match node with
  | NoneX => None
  | DictX point _ _ _ _ _ => Some point
  end.

Definition node_voronoi (node : tree_x) : option Diagram :=
  match node with
  | NoneX => None
  | DictX _ _ _ _ _ voronoi => voronoi
  end.

Definition node_points_sorted_by_y (node : tree_x) : list Node :=
  match node with
  | NoneX => []
  | DictX _ _ _ _ points_sorted_by_y _ => points_sorted_by_y
  end.

(** [query] has no [return] statement (the one of the source is commented
    out), so its value is Python's [None]; the type of the value is an
    option over a visited path so that it can be compared with one.  The
    first component is what the call prints and plots. *)
Definition query (root : tree_x) (query_point : Node)
  : list event * option (list tree_x) :=
  let visited_nodes := _query_tree root query_point [] in
  let shown :=
    flat_map (fun node =>
                _visualize_voronoi (node_voronoi node)
                  (node_points_sorted_by_y node) (Some query_point))
             visited_nodes in
  (PrintVisualizingAll :: shown, None).

(** ** The entry point

    The loop [for i in range(len(feature_space))] which pairs the two
    coordinate lists; an index out of range raises [IndexError]. *)

Definition make_node (f r : Z * Z) : Node :=
  mkNode (mkPoint (fst f) (snd f)) (mkPoint (fst r) (snd r)).

Fixpoint main_loop (feature_space real_space : list (Z * Z))
    (range : list nat) (points : list Node) : result (list Node) :=
  match range with
  | [] => Ok points
  | i :: range' =>
      match nth_error feature_space i with
      | None => Raised "IndexError"%string
      | Some f =>
          match nth_error real_space i with
          | None => Raised "IndexError"%string
          | Some r =>
              main_loop feature_space real_space range'
                (points ++ [make_node f r])
          end
      end
  end.

Definition main_points (feature_space real_space : list (Z * Z))
  : result (list Node) :=
  main_loop feature_space real_space (seq 0 (length feature_space)) [].

(** [tree = RangeTree2D(points)] after the loop. *)
Definition main_tree (feature_space real_space : list (Z * Z))
  : result (tree_x * list Node * list event) :=
  match main_points feature_space real_space with
  | Ok points => RangeTree2D points
  | Raised e => Raised e
  | OutOfFuel => OutOfFuel
  end.

(** ** Measures on trees *)

(** Number of nodes. *)
Fixpoint size_x (t : tree_x) : nat :=
  match t with
  | NoneX => 0
  | DictX _ l r _ _ _ => 1 + size_x l + size_x r
  end.

Fixpoint size_y (t : tree_y) : nat :=
  match t with
  | NoneY => 0
  | DictY _ l r _ => 1 + size_y l + size_y r
  end.

(** Height, counted in edges: a single node has height 0 and the absent
    tree has height -1. *)
Fixpoint height_x (t : tree_x) : Z :=
  match t with
  | NoneX => -1
  | DictX _ l r _ _ _ => 1 + Z.max (height_x l) (height_x r)
  end.

(** The points stored in the nodes, left to right. *)
Fixpoint medians_x (t : tree_x) : list Node :=
  match t with
  | NoneX => []
  | DictX p l r _ _ _ => medians_x l ++ p :: medians_x r
  end.

Fixpoint medians_y (t : tree_y) : list Node :=
  match t with
  | NoneY => []
  | DictY p l r _ => medians_y l ++ p :: medians_y r
  end.

(** All nodes (dicts) of a primary tree, each with the subtree below it. *)
Fixpoint nodes_x (t : tree_x) : list tree_x :=
  match t with
  | NoneX => []
  | DictX _ l r _ _ _ => t :: nodes_x l ++ nodes_x r
  end.

(** The search-tree order on a key: everything on the left of a node is not
    above the node's point, everything on the right is not below it. *)
Fixpoint ordered_y (t : tree_y) : Prop :=
  match t with
  | NoneY => True
  | DictY p l r _ =>
      Forall (fun q => (key_y q <= key_y p)%Z) (medians_y l) /\
      Forall (fun q => (key_y p <= key_y q)%Z) (medians_y r) /\
      ordered_y l /\ ordered_y r
  end.

Fixpoint ordered_x (t : tree_x) : Prop :=
  match t with
  | NoneX => True
  | DictX p l r ty _ _ =>
      Forall (fun q => (key_x q <= key_x p)%Z) (medians_x l) /\
      Forall (fun q => (key_x p <= key_x q)%Z) (medians_x r) /\
      ordered_x l /\ ordered_x r /\ ordered_y ty
  end.

(** Diagram gating: every node covering fewer than 4 points has no diagram;
    for a primary node this includes the nodes of its tree on y. *)
Fixpoint gated_y (t : tree_y) : Prop :=
  match t with
  | NoneY => True
  | DictY _ l r v => (size_y t < 4 -> v = None) /\ gated_y l /\ gated_y r
  end.

Fixpoint gated_x (t : tree_x) : Prop :=
  match t with
  | NoneX => True
  | DictX _ l r ty _ v =>
      (size_x t < 4 -> v = None) /\ gated_x l /\ gated_x r /\ gated_y ty
  end.

(** ** The visited path in the words of the specification

    Starting at the root: stop when the current node is absent; otherwise
    the current node is the next element of the result and the walk goes on
    in the left child when the target's x is at most the median's x, and in
    the right child otherwise. *)
Fixpoint visited_path (current : tree_x) (target : Node) : list tree_x :=
  match current with
  | NoneX => []
  | DictX median l r _ _ _ =>
      current ::
      (if (key_x target <=? key_x median)%Z
       then visited_path l target
       else visited_path r target)
  end.

(** The child the walk takes from a node. *)
Definition next_node (target : Node) (current : tree_x) : tree_x :=
  match current with
  | NoneX => NoneX
  | DictX median l r _ _ _ =>
      if (key_x target <=? key_x median)%Z then l else r
  end.

(** [descends target current path]: [path] starts at [current], every
    further element is the child taken from the one before it, and the
    child taken from the last element is absent. *)
Fixpoint descends (target : Node) (current : tree_x) (path : list tree_x)
  : Prop :=
  match path with
  | [] => current = NoneX
  | node :: path' =>
      node = current /\ current <> NoneX /\
      descends target (next_node target current) path'
  end.

(** ** The call tree of the builders

    What [_compute_voronoi] answers and prints on a list. *)
Definition diagram_of (points : list Node) : option Diagram :=
  if length points <? 4 then None
  else match Voronoi (real_points_as_float points) with
       | inl vor => Some vor
       | inr _ => None
       end.

Definition diagram_log (points : list Node) : list event :=
  if length points <? 4 then []
  else match Voronoi (real_points_as_float points) with
       | inl _ => []
       | inr e => [PrintVoronoiFailed points e]
       end.

(** [built_y points t out]: the call [_build_tree_on_y(points)] returns [t]
    and prints [out]; one rule per branch of the source. *)
Inductive built_y : list Node -> tree_y -> list event -> Prop :=
| built_y_None : built_y [] NoneY []
| built_y_Dict points sorted mid point lt rt lout rout :
    points <> [] ->
    sorted = list_sort key_y points ->
    mid = length sorted / 2 ->
    nth_error sorted mid = Some point ->
    built_y (firstn mid sorted) lt lout ->
    built_y (skipn (mid + 1) sorted) rt rout ->
    built_y points (DictY point lt rt (diagram_of sorted))
            (lout ++ rout ++ diagram_log sorted).

(** [built_x points t out], likewise for [_build_tree_on_x(points)]: the
    tree on y is built from the whole x-sorted list, which that call leaves
    sorted by y. *)
Inductive built_x : list Node -> tree_x -> list event -> Prop :=
| built_x_None : built_x [] NoneX []
| built_x_Dict points sorted mid point lt rt lout rout yt yout by_y :
    points <> [] ->
    sorted = list_sort key_x points ->
    mid = length sorted / 2 ->
    nth_error sorted mid = Some point ->
    built_x (firstn mid sorted) lt lout ->
    built_x (skipn (mid + 1) sorted) rt rout ->
    built_y sorted yt yout ->
    by_y = list_sort key_y sorted ->
    built_x points (DictX point lt rt yt by_y (diagram_of by_y))
            (lout ++ rout ++ yout ++ diagram_log by_y).

(** An event printed by the diagram computation. *)
Definition is_voronoi_failure (e : event) : Prop :=
  match e with
  | PrintVoronoiFailed _ _ => True
  | _ => False
  end.

End RangeTree.

(** ** Shapes

    A tree with its diagrams erased: the medians, the children, the tree on
    y and the list sorted by y.  Shapes of trees built with different
    geometry services can be compared. *)

Inductive shape_y : Type :=
| ShapeNoneY
| ShapeDictY (point : Node) (l r : shape_y).

Inductive shape_x : Type :=
| ShapeNoneX
| ShapeDictX (point : Node) (l r : shape_x) (range_tree_on_y : shape_y)
             (points_sorted_by_y : list Node).

Fixpoint shape_of_y (Diagram : Type) (t : tree_y Diagram) : shape_y :=
  match t with
  | NoneY _ => ShapeNoneY
  | DictY p l r _ => ShapeDictY p (shape_of_y l) (shape_of_y r)
  end.

Fixpoint shape_of_x (Diagram : Type) (t : tree_x Diagram) : shape_x :=
  match t with
  | NoneX _ => ShapeNoneX
  | DictX p l r ty ps _ =>
      ShapeDictX p (shape_of_x l) (shape_of_x r) (shape_of_y ty) ps
  end.

(** ** Further readings of a tree *)

(** The field [node['range_tree_on_y']] of a primary node, and the field
    [node['voronoi']] of a node of a tree on y. *)
Definition node_range_tree_on_y (Diagram : Type) (node : tree_x Diagram)
  : tree_y Diagram :=
  match node with
  | NoneX _ => NoneY Diagram
  | DictX _ _ _ range_tree_on_y _ _ => range_tree_on_y
  end.

Definition node_voronoi_y (Diagram : Type) (node : tree_y Diagram)
  : option Diagram :=
  match node with
  | NoneY _ => None
  | DictY _ _ _ voronoi => voronoi
  end.

(** Balance: at every node the left subtree has as many nodes as the right
    subtree, or one more; for a primary node also in its tree on y. *)
Fixpoint balanced_y (Diagram : Type) (t : tree_y Diagram) : Prop :=
  match t with
  | NoneY _ => True
  | DictY _ l r _ =>
      size_y r <= size_y l <= S (size_y r) /\ balanced_y l /\ balanced_y r
  end.

Fixpoint balanced_x (Diagram : Type) (t : tree_x Diagram) : Prop :=
  match t with
  | NoneX _ => True
  | DictX _ l r ty _ _ =>
      size_x r <= size_x l <= S (size_x r) /\
      balanced_x l /\ balanced_x r /\ balanced_y ty
  end.

(** A plot shown by [query] is faithful when its diagram is the answer of
    the geometry service on the plotted points, of which there are at
    least 4, and the plot shows the query point. *)
Definition faithful_plot (Diagram Exception : Type)
    (Voronoi : list (Z * Z) -> Diagram + Exception) (query_point : Node)
    (e : event Diagram Exception) : Prop :=
  match e with
  | PlotVoronoi _ vor real_points shown =>
      4 <= length real_points /\
      Voronoi real_points = inl vor /\
      shown = Some query_point
  | _ => True
  end.

(** ** [__repr__]

    [Point.__repr__] and [Node.__repr__].  An f-string formats an integer
    as [str] does, in decimal with a leading minus sign for a negative
    number, and formats a [Point] by its [__repr__]. *)

Definition repr_int (n : Z) : string :=
  NilEmpty.string_of_int (Z.to_int n).

Definition Point_repr (p : Point) : string :=
  ("Point(" ++ repr_int (x p) ++ ", " ++ repr_int (y p) ++ ")")%string.

Definition Node_repr (n : Node) : string :=
  ("Node(" ++ Point_repr (feature_point n) ++ ", "
           ++ Point_repr (real_point n) ++ ")")%string.

(** A string without the two delimiters of the formats. *)
Fixpoint plain (s : string) : Prop :=
  match s with
  | EmptyString => True
  | String c s' => c <> ","%char /\ c <> ")"%char /\ plain s'
  end.

(** A failure message of the build is faithful when it reports a list of
    at least 4 points on whose real coordinates the geometry service
    raised the reported exception. *)
Definition faithful_failure (Diagram Exception : Type)
    (Voronoi : list (Z * Z) -> Diagram + Exception)
    (e : event Diagram Exception) : Prop :=
  match e with
  | PrintVoronoiFailed _ points exc =>
      4 <= length points /\
      Voronoi (real_points_as_float points) = inr exc
  | _ => False
  end.

(** ** The failure message of [_compute_voronoi], formatted

    The handler of [_compute_voronoi] prints the points, which formats each
    coordinate with [str].  The interpreter refuses to convert an integer
    of more than [sys.int_max_str_digits] decimal digits (4300 unless it is
    reconfigured) and raises [ValueError]; an integer has more than that
    many digits exactly when its absolute value is at least 10 to that
    power.  The [print] sits in the handler, outside the [try]. *)

Definition int_max_str_digits : nat := 4300.

Definition str_int (n : Z) : result string :=
  if (10 ^ Z.of_nat int_max_str_digits <=? Z.abs n)%Z
  then Raised "ValueError"%string
  else Ok (repr_int n).

Definition result_bind (A B : Type) (r : result A) (k : A -> result B)
  : result B :=
  match r with
  | Ok a => k a
  | Raised exc => Raised exc
  | OutOfFuel => OutOfFuel
  end.

(** [Point.__repr__] and [Node.__repr__] with the conversions carried out. *)
Definition Point_repr_checked (p : Point) : result string :=
  result_bind (str_int (x p)) (fun sx =>
  result_bind (str_int (y p)) (fun sy =>
  Ok ("Point(" ++ sx ++ ", " ++ sy ++ ")")%string)).

Definition Node_repr_checked (n : Node) : result string :=
  result_bind (Point_repr_checked (feature_point n)) (fun sf =>
  result_bind (Point_repr_checked (real_point n)) (fun sr =>
  Ok ("Node(" ++ sf ++ ", " ++ sr ++ ")")%string)).

(** The elements of a list, each by its [__repr__], separated by commas. *)
Fixpoint join_repr_checked (points : list Node) : result string :=
  match points with
  | [] => Ok ""%string
  | [p] => Node_repr_checked p
  | p :: rest =>
      result_bind (Node_repr_checked p) (fun s =>
      result_bind (join_repr_checked rest) (fun r =>
      Ok (s ++ ", " ++ r)%string))
  end.

Definition list_repr_checked (points : list Node) : result string :=
  result_bind (join_repr_checked points) (fun s =>
  Ok ("[" ++ s ++ "]")%string).

(** A dual point all of whose coordinates [str] converts. *)
Definition printable_int (n : Z) : Prop :=
  (Z.abs n < 10 ^ Z.of_nat int_max_str_digits)%Z.

Definition printable (n : Node) : Prop :=
  printable_int (x (feature_point n)) /\ printable_int (y (feature_point n)) /\
  printable_int (x (real_point n)) /\ printable_int (y (real_point n)).

(** [_compute_voronoi] with the message of the handler formatted before it
    is printed: when the formatting raises, the exception leaves the
    function. *)
Definition _compute_voronoi_printing (Diagram Exception : Type)
    (Voronoi : list (Z * Z) -> Diagram + Exception)
  : M Diagram Exception (option Diagram) :=
  bind (@get_points Diagram Exception) (fun points =>
  if length points <? 4 then @ret Diagram Exception _ None
  else
    match Voronoi (real_points_as_float points) with
    | inl vor => @ret Diagram Exception _ (Some vor)
    | inr e =>
        match list_repr_checked points with
        | Ok _ => bind (print (PrintVoronoiFailed Diagram points e))
                       (fun _ => @ret Diagram Exception _ None)
        | Raised exc => fun _ => Raised exc
        | OutOfFuel => fun _ => OutOfFuel
        end
    end).

(** ** Sample data

    A point whose real position is its feature position, two geometry
    services (one that always answers, one that always fails), and the two
    coordinate lists of the program. *)

Definition pt (a b : Z) : Node := mkNode (mkPoint a b) (mkPoint a b).

Definition voronoi_ok : list (Z * Z) -> list (Z * Z) + string :=
  fun real_points => inl real_points.

Definition voronoi_fails : list (Z * Z) -> list (Z * Z) + string :=
  fun _ => inr "QhullError"%string.

Definition real_space : list (Z * Z) :=
  [(1, 2); (3, 5); (4, 1); (6, 7); (7, 3);
   (2, 8); (8, 4); (5, 6); (9, 1); (0, 3);
   (3, 7); (6, 2); (1, 9); (4, 4); (7, 5)]%Z.

Definition feature_space : list (Z * Z) :=
  [(0, 0); (2, 1); (3, 4); (1, 6); (-1, 5);
   (-3, 3); (-2, 0); (1, -2); (3, -1); (4, 2);
   (5, 5); (3, 7); (0, 8); (-3, 6); (-4, 3)]%Z.

(** Four points on a line in real space, one of them with a feature
    coordinate of 4301 decimal digits. *)
Definition wide_points : list Node :=
  [pt 0 0; pt 1 1; pt 2 2;
   mkNode (mkPoint (10 ^ Z.of_nat int_max_str_digits) 0) (mkPoint 3 3)].

Unset Implicit Arguments.

(** * Properties *)

(** ** The sort: a stable permutation with non-decreasing keys *)

Section SortFacts.

Variable key : Node -> Z.

Lemma insert_by_perm (a : Node) (l : list Node) :
  Permutation (a :: l) (insert_by key a l).
Proof.
  induction l as [|b l IH]; simpl.
  - apply Permutation_refl.
  - destruct (key a <=? key b)%Z.
    + apply Permutation_refl.
    + eapply perm_trans; [apply perm_swap|]. now apply perm_skip.
Qed.

Lemma list_sort_perm (l : list Node) : Permutation l (list_sort key l).
Proof.
  induction l as [|a l IH]; simpl.
  - constructor.
  - eapply perm_trans; [apply perm_skip, IH|]. apply insert_by_perm.
Qed.

Lemma list_sort_length (l : list Node) : length (list_sort key l) = length l.
Proof. symmetry. apply Permutation_length, list_sort_perm. Qed.

Lemma insert_by_sorted (a : Node) (l : list Node) :
  sorted_by key l -> sorted_by key (insert_by key a l).
Proof.
  unfold sorted_by. induction 1 as [|b l Hs IH Hb]; simpl.
  - repeat constructor.
  - destruct (key a <=? key b)%Z eqn:E.
    + apply Z.leb_le in E. constructor.
      * now constructor.
      * constructor; [exact E|].
        eapply Forall_impl; [|exact Hb]. simpl. intros; lia.
    + apply Z.leb_gt in E. constructor; [exact IH|].
      eapply Permutation_Forall; [apply insert_by_perm|].
      constructor; [lia|exact Hb].
Qed.

Lemma list_sort_sorted (l : list Node) : sorted_by key (list_sort key l).
Proof.
  induction l as [|a l IH]; simpl.
  - constructor.
  - now apply insert_by_sorted.
Qed.

(** Sorting a list whose keys are already in order changes nothing. *)
Lemma list_sort_id (l : list Node) : sorted_by key l -> list_sort key l = l.
Proof.
  unfold sorted_by. induction 1 as [|a l Hs IH Ha]; simpl; [reflexivity|].
  rewrite IH. destruct l as [|b l]; [reflexivity|]. simpl.
  inversion Ha as [|? ? Hab _]; subst.
  apply Z.leb_le in Hab. now rewrite Hab.
Qed.

(** Stability: the elements of any one key keep their relative order. *)
Lemma insert_by_stable (k : Z) (a : Node) (l : list Node) :
  filter (fun p => (key p =? k)%Z) (insert_by key a l) =
  filter (fun p => (key p =? k)%Z) (a :: l).
Proof.
  induction l as [|b l IH]; [reflexivity|].
  simpl insert_by. destruct (key a <=? key b)%Z eqn:E; [reflexivity|].
  apply Z.leb_gt in E.
  change (filter (fun p => (key p =? k)%Z) (b :: insert_by key a l))
    with (if (key b =? k)%Z
          then b :: filter (fun p => (key p =? k)%Z) (insert_by key a l)
          else filter (fun p => (key p =? k)%Z) (insert_by key a l)).
  rewrite IH. simpl.
  destruct (key a =? k)%Z eqn:Ea, (key b =? k)%Z eqn:Eb; try reflexivity.
  apply Z.eqb_eq in Ea, Eb. lia.
Qed.

Lemma list_sort_stable (k : Z) (l : list Node) :
  filter (fun p => (key p =? k)%Z) (list_sort key l) =
  filter (fun p => (key p =? k)%Z) l.
Proof.
  induction l as [|a l IH]; [reflexivity|].
  simpl list_sort. rewrite insert_by_stable. simpl. now rewrite IH.
Qed.

(** ** Slicing a sorted list at an index *)

Lemma split_at (l : list Node) (mid : nat) (p : Node) :
  nth_error l mid = Some p ->
  l = firstn mid l ++ p :: skipn (mid + 1) l.
Proof.
  revert mid. induction l as [|a l IH]; intros [|mid] H; simpl in *;
    try discriminate.
  - now inversion H.
  - f_equal. now apply IH.
Qed.

Lemma sorted_by_app_inv (l1 l2 : list Node) (p : Node) :
  sorted_by key (l1 ++ p :: l2) ->
  Forall (fun q => (key q <= key p)%Z) l1 /\
  Forall (fun q => (key p <= key q)%Z) l2.
Proof.
  unfold sorted_by. induction l1 as [|a l1 IH]; simpl; intros H.
  - inversion H; subst. split; [constructor|assumption].
  - inversion H as [|? ? Hs Ha]; subst. destruct (IH Hs) as [H1 H2].
    split; [|exact H2]. constructor; [|exact H1].
    rewrite Forall_app in Ha. destruct Ha as [_ Ha].
    now inversion Ha.
Qed.

Lemma sorted_split (l : list Node) (mid : nat) (p : Node) :
  sorted_by key l -> nth_error l mid = Some p ->
  Forall (fun q => (key q <= key p)%Z) (firstn mid l) /\
  Forall (fun q => (key p <= key q)%Z) (skipn (mid + 1) l).
Proof.
  intros Hs Hn. apply sorted_by_app_inv.
  now rewrite <- (split_at _ _ _ Hn).
Qed.

End SortFacts.

(** The median index of a non-empty list is in range. *)
Lemma mid_in_range (A : Type) (l : list A) :
  l <> [] -> length l / 2 < length l.
Proof.
  intros H. destruct l; [congruence|]. simpl length.
  apply Nat.div_lt; lia.
Qed.

(** ** The builders: call trees, totality and fuel *)

Lemma list_eq_dec_nil (A : Type) (l : list A) : l = [] \/ l <> [].
Proof. destruct l; [now left|right; discriminate]. Qed.

Section BuilderFacts.

Variable Diagram : Type.
Variable Exception : Type.
Variable Voronoi : list (Z * Z) -> Diagram + Exception.

Local Abbreviation event := (event Diagram Exception).
Local Abbreviation tree_x := (tree_x Diagram).
Local Abbreviation tree_y := (tree_y Diagram).
Local Abbreviation built_y := (built_y Voronoi).
Local Abbreviation built_x := (built_x Voronoi).

Lemma _compute_voronoi_run (points : list Node) :
  _compute_voronoi Voronoi points =
  Ok (diagram_of Voronoi points, points, diagram_log Voronoi points).
Proof.
  unfold _compute_voronoi, diagram_of, diagram_log, bind, get_points, ret,
    print.
  destruct (length points <? 4); [reflexivity|].
  destruct (Voronoi (real_points_as_float points)); reflexivity.
Qed.

(** One unfolding of the builder on a non-empty list, with the monad
    operations carried out. *)
Lemma _build_tree_on_y_S (fuel : nat) (points : list Node) :
  points <> [] ->
  _build_tree_on_y Voronoi (S fuel) points =
  let sorted := list_sort key_y points in
  let mid := length sorted / 2 in
  match nth_error sorted mid with
  | None => Raised "IndexError"%string
  | Some point =>
      match _build_tree_on_y Voronoi fuel (firstn mid sorted) with
      | Ok (lt, _, lout) =>
          match _build_tree_on_y Voronoi fuel (skipn (mid + 1) sorted) with
          | Ok (rt, _, rout) =>
              Ok (DictY point lt rt (diagram_of Voronoi sorted), sorted,
                  lout ++ rout ++ diagram_log Voronoi sorted)
          | Raised e => Raised e
          | OutOfFuel => OutOfFuel
          end
      | Raised e => Raised e
      | OutOfFuel => OutOfFuel
      end
  end.
Proof.
  intros Hne. destruct points as [|a points']; [congruence|].
  cbn [_build_tree_on_y].
  cbv beta iota zeta
      delta [bind get_points sort_in_place getitem call_fresh ret].
  destruct (nth_error _ _); [|reflexivity].
  destruct (_build_tree_on_y _ _ _) as [[[lt ?] lout]| |]; try reflexivity.
  destruct (_build_tree_on_y _ _ _) as [[[rt ?] rout]| |]; try reflexivity.
  rewrite _compute_voronoi_run. now rewrite !app_nil_r.
Qed.

Lemma _build_tree_on_y_run (fuel : nat) :
  forall points, length points < fuel ->
  exists t out,
    _build_tree_on_y Voronoi fuel points =
      Ok (t, list_sort key_y points, out) /\
    built_y points t out.
Proof.
  induction fuel as [|fuel IH]; intros points Hlen; [lia|].
  destruct (list_eq_dec_nil _ points) as [->|Hne].
  - exists (NoneY Diagram), []. split; [reflexivity|constructor].
  - rewrite (_build_tree_on_y_S _ _ Hne). cbv zeta.
    set (sorted := list_sort key_y points).
    assert (Hsl : length sorted = length points) by apply list_sort_length.
    assert (Hsne : sorted <> []).
    { intros E. rewrite E in Hsl. destruct points; [congruence|discriminate]. }
    pose proof (mid_in_range _ _ Hsne) as Hmid.
    destruct (nth_error sorted (length sorted / 2)) as [point|] eqn:Enth;
      [|apply nth_error_None in Enth; lia].
    destruct (IH (firstn (length sorted / 2) sorted))
      as (lt & lout & El & Bl).
    { rewrite length_firstn. lia. }
    destruct (IH (skipn (length sorted / 2 + 1) sorted))
      as (rt & rout & Er & Br).
    { rewrite length_skipn. lia. }
    rewrite El, Er. eexists _, _. split; [reflexivity|].
    econstructor; eauto.
Qed.

Lemma _build_tree_on_x_S (fuel : nat) (points : list Node) :
  points <> [] ->
  _build_tree_on_x Voronoi (S fuel) points =
  let sorted := list_sort key_x points in
  let mid := length sorted / 2 in
  match nth_error sorted mid with
  | None => Raised "IndexError"%string
  | Some point =>
      match _build_tree_on_x Voronoi fuel (firstn mid sorted) with
      | Ok (lt, _, lout) =>
          match _build_tree_on_x Voronoi fuel (skipn (mid + 1) sorted) with
          | Ok (rt, _, rout) =>
              match _build_tree_on_y Voronoi (S fuel) sorted with
              | Ok (yt, points', yout) =>
                  let by_y := list_sort key_y points' in
                  Ok (DictX point lt rt yt by_y (diagram_of Voronoi points'),
                      points',
                      lout ++ rout ++ yout ++ diagram_log Voronoi points')
              | Raised e => Raised e
              | OutOfFuel => OutOfFuel
              end
          | Raised e => Raised e
          | OutOfFuel => OutOfFuel
          end
      | Raised e => Raised e
      | OutOfFuel => OutOfFuel
      end
  end.
Proof.
  intros Hne. destruct points as [|a points']; [congruence|].
  cbn [_build_tree_on_x].
  cbv beta iota zeta
      delta [bind get_points sort_in_place getitem call_fresh ret].
  destruct (nth_error _ _); [|reflexivity].
  destruct (_build_tree_on_x _ _ _) as [[[lt ?] lout]| |]; try reflexivity.
  destruct (_build_tree_on_x _ _ _) as [[[rt ?] rout]| |]; try reflexivity.
  destruct (_build_tree_on_y _ _ _) as [[[yt ?] yout]| |]; try reflexivity.
  rewrite _compute_voronoi_run. now rewrite !app_nil_r.
Qed.

Lemma _build_tree_on_x_run (fuel : nat) :
  forall points, length points < fuel ->
  exists t out,
    _build_tree_on_x Voronoi fuel points =
      Ok (t, list_sort key_y (list_sort key_x points), out) /\
    built_x points t out.
Proof.
  induction fuel as [|fuel IH]; intros points Hlen; [lia|].
  destruct (list_eq_dec_nil _ points) as [->|Hne].
  - exists (NoneX Diagram), []. split; [reflexivity|constructor].
  - rewrite (_build_tree_on_x_S _ _ Hne). cbv zeta.
    set (sorted := list_sort key_x points).
    assert (Hsl : length sorted = length points) by apply list_sort_length.
    assert (Hsne : sorted <> []).
    { intros E. rewrite E in Hsl. destruct points; [congruence|discriminate]. }
    pose proof (mid_in_range _ _ Hsne) as Hmid.
    destruct (nth_error sorted (length sorted / 2)) as [point|] eqn:Enth;
      [|apply nth_error_None in Enth; lia].
    destruct (IH (firstn (length sorted / 2) sorted))
      as (lt & lout & El & Bl).
    { rewrite length_firstn. lia. }
    destruct (IH (skipn (length sorted / 2 + 1) sorted))
      as (rt & rout & Er & Br).
    { rewrite length_skipn. lia. }
    destruct (_build_tree_on_y_run (S fuel) sorted) as (yt & yout & Ey & By);
      [lia|].
    rewrite El, Er, Ey.
    rewrite (list_sort_id _ _ (list_sort_sorted key_y sorted)).
    eexists _, _. split; [reflexivity|].
    econstructor; eauto.
Qed.

(** Enough fuel: the constructor always returns, and what it returns is
    described by [built_x]. *)
Lemma RangeTree2D_built (points : list Node) :
  exists t out,
    RangeTree2D Voronoi points =
      Ok (t, list_sort key_y (list_sort key_x points), out) /\
    built_x points t out.
Proof. apply _build_tree_on_x_run. lia. Qed.

(** ** What the call trees guarantee *)

Lemma split_length (l : list Node) (mid : nat) (p : Node) :
  nth_error l mid = Some p ->
  length l = length (firstn mid l) + 1 + length (skipn (mid + 1) l).
Proof.
  intros H. rewrite (split_at _ _ _ H) at 1.
  rewrite length_app. simpl. lia.
Qed.

Lemma split_perm (l : list Node) (mid : nat) (p : Node) (l1 l2 : list Node) :
  nth_error l mid = Some p ->
  Permutation l1 (firstn mid l) -> Permutation l2 (skipn (mid + 1) l) ->
  Permutation (l1 ++ p :: l2) l.
Proof.
  intros H H1 H2. rewrite (split_at _ _ _ H) at 1.
  apply Permutation_app; [exact H1|]. now apply perm_skip.
Qed.

Lemma built_y_size points t out :
  built_y points t out -> size_y t = length points.
Proof.
  induction 1 as [|points sorted mid point lt rt lout rout
                   Hne Hs Hm Hn _ IHl _ IHr];
    [reflexivity|].
  simpl. rewrite IHl, IHr.
  rewrite <- (list_sort_length key_y points), <- Hs.
  rewrite (split_length _ _ _ Hn). lia.
Qed.

Lemma built_y_medians points t out :
  built_y points t out -> Permutation (medians_y t) points.
Proof.
  induction 1 as [|points sorted mid point lt rt lout rout
                   Hne Hs Hm Hn _ IHl _ IHr];
    [constructor|].
  simpl. eapply perm_trans; [apply (split_perm _ _ _ _ _ Hn IHl IHr)|].
  subst sorted. apply Permutation_sym, list_sort_perm.
Qed.

Lemma built_y_ordered points t out :
  built_y points t out -> ordered_y t.
Proof.
  induction 1 as [|points sorted mid point lt rt lout rout
                   Hne Hs Hm Hn Hl IHl Hr IHr];
    [exact I|].
  assert (Hsorted : sorted_by key_y sorted)
    by (subst sorted; apply list_sort_sorted).
  destruct (sorted_split _ _ _ _ Hsorted Hn) as [Hlo Hhi].
  simpl. repeat split; try assumption.
  - eapply Permutation_Forall;
      [apply Permutation_sym, (built_y_medians _ _ _ Hl)|exact Hlo].
  - eapply Permutation_Forall;
      [apply Permutation_sym, (built_y_medians _ _ _ Hr)|exact Hhi].
Qed.

Lemma diagram_of_small (points : list Node) :
  length points < 4 -> diagram_of Voronoi points = None.
Proof.
  intros H. unfold diagram_of.
  apply Nat.ltb_lt in H. now rewrite H.
Qed.

Lemma built_y_gated points t out :
  built_y points t out -> gated_y t.
Proof.
  intros H. induction H as [|points sorted mid point lt rt lout rout
                   Hne Hs Hm Hn Hl IHl Hr IHr];
    [exact I|].
  assert (Hsize : size_y (DictY point lt rt (diagram_of Voronoi sorted))
                  = length sorted).
  { rewrite (built_y_size _ _ _ (built_y_Dict Hne Hs Hm Hn Hl Hr)).
    subst sorted. now rewrite list_sort_length. }
  cbn [gated_y]. rewrite Hsize. repeat split; try assumption.
  apply diagram_of_small.
Qed.

Lemma diagram_log_failures (points : list Node) :
  Forall (@is_voronoi_failure Diagram Exception) (diagram_log Voronoi points).
Proof.
  unfold diagram_log. destruct (length points <? 4); [constructor|].
  destruct (Voronoi _); repeat constructor.
Qed.

Lemma built_y_log points t out :
  built_y points t out -> Forall (@is_voronoi_failure Diagram Exception) out.
Proof.
  induction 1; [constructor|].
  rewrite !Forall_app. auto using diagram_log_failures.
Qed.

Lemma built_y_functional points t out :
  built_y points t out ->
  forall t' out', built_y points t' out' -> t = t' /\ out = out'.
Proof.
  induction 1 as [|points sorted mid point lt rt lout rout
                   Hne Hs Hm Hn _ IHl _ IHr];
    intros t' out' H'.
  - inversion H'; subst; [now split|congruence].
  - inversion H' as [|? sorted' mid' point' lt' rt' lout' rout'
                      _ Hs' Hm' Hn' Hl' Hr'];
      subst; [congruence|].
    destruct (IHl _ _ Hl') as [-> ->]. destruct (IHr _ _ Hr') as [-> ->].
    rewrite Hn in Hn'. inversion Hn'; subst. now split.
Qed.

Lemma built_x_size points t out :
  built_x points t out -> size_x t = length points.
Proof.
  induction 1 as [|points sorted mid point lt rt lout rout yt yout by_y
                   Hne Hs Hm Hn _ IHl _ IHr Hy Hby];
    [reflexivity|].
  simpl. rewrite IHl, IHr.
  rewrite <- (list_sort_length key_x points), <- Hs.
  rewrite (split_length _ _ _ Hn). lia.
Qed.

Lemma built_x_medians points t out :
  built_x points t out -> Permutation (medians_x t) points.
Proof.
  induction 1 as [|points sorted mid point lt rt lout rout yt yout by_y
                   Hne Hs Hm Hn _ IHl _ IHr Hy Hby];
    [constructor|].
  simpl. eapply perm_trans; [apply (split_perm _ _ _ _ _ Hn IHl IHr)|].
  subst sorted. apply Permutation_sym, list_sort_perm.
Qed.

Lemma built_x_ordered points t out :
  built_x points t out -> ordered_x t.
Proof.
  induction 1 as [|points sorted mid point lt rt lout rout yt yout by_y
                   Hne Hs Hm Hn Hl IHl Hr IHr Hy Hby];
    [exact I|].
  assert (Hsorted : sorted_by key_x sorted)
    by (subst sorted; apply list_sort_sorted).
  destruct (sorted_split _ _ _ _ Hsorted Hn) as [Hlo Hhi].
  simpl. repeat split; try assumption.
  - eapply Permutation_Forall;
      [apply Permutation_sym, (built_x_medians _ _ _ Hl)|exact Hlo].
  - eapply Permutation_Forall;
      [apply Permutation_sym, (built_x_medians _ _ _ Hr)|exact Hhi].
  - exact (built_y_ordered _ _ _ Hy).
Qed.

Lemma built_x_gated points t out :
  built_x points t out -> gated_x t.
Proof.
  intros H.
  induction H as [|points sorted mid point lt rt lout rout yt yout by_y
                   Hne Hs Hm Hn Hl IHl Hr IHr Hy Hby];
    [exact I|].
  assert (Hsize : size_x (DictX point lt rt yt by_y (diagram_of Voronoi by_y))
                  = length by_y).
  { rewrite (built_x_size _ _ _ (built_x_Dict Hne Hs Hm Hn Hl Hr Hy Hby)).
    subst by_y sorted. now rewrite !list_sort_length. }
  cbn [gated_x]. rewrite Hsize. repeat split; try assumption.
  - apply diagram_of_small.
  - exact (built_y_gated _ _ _ Hy).
Qed.

Lemma built_x_log points t out :
  built_x points t out -> Forall (@is_voronoi_failure Diagram Exception) out.
Proof.
  induction 1; [constructor|].
  rewrite !Forall_app. eauto using diagram_log_failures, built_y_log.
Qed.

Lemma built_x_functional points t out :
  built_x points t out ->
  forall t' out', built_x points t' out' -> t = t' /\ out = out'.
Proof.
  induction 1 as [|points sorted mid point lt rt lout rout yt yout by_y
                   Hne Hs Hm Hn _ IHl _ IHr Hy Hby];
    intros t' out' H'.
  - inversion H'; subst; [now split|congruence].
  - inversion H' as [|? sorted' mid' point' lt' rt' lout' rout' yt' yout' by_y'
                      _ Hs' Hm' Hn' Hl' Hr' Hy' Hby'];
      subst; [congruence|].
    destruct (IHl _ _ Hl') as [-> ->]. destruct (IHr _ _ Hr') as [-> ->].
    destruct (built_y_functional _ _ _ Hy _ _ Hy') as [-> ->].
    rewrite Hn in Hn'. inversion Hn'; subst. now split.
Qed.

(** A call tree is the constructor's result on its list. *)
Lemma built_x_RangeTree2D points t out :
  built_x points t out ->
  RangeTree2D Voronoi points =
    Ok (t, list_sort key_y (list_sort key_x points), out).
Proof.
  intros H. destruct (RangeTree2D_built points) as (t' & out' & E & H').
  destruct (built_x_functional _ _ _ H _ _ H') as [-> ->]. exact E.
Qed.

(** The fuel does not matter once there is enough of it. *)
Lemma _build_tree_on_x_fuel (fuel : nat) (points : list Node) :
  length points < fuel ->
  _build_tree_on_x Voronoi fuel points = RangeTree2D Voronoi points.
Proof.
  intros Hlen.
  destruct (_build_tree_on_x_run fuel points Hlen) as (t & out & E & H).
  rewrite E. symmetry. now apply built_x_RangeTree2D.
Qed.

(** Every node of a built tree is the result of a build call of its own. *)
Lemma built_x_nodes points t out :
  built_x points t out ->
  Forall (fun node => exists subset out', built_x subset node out') (nodes_x t).
Proof.
  induction 1 as [|points sorted mid point lt rt lout rout yt yout by_y
                   Hne Hs Hm Hn Hl IHl Hr IHr Hy Hby];
    [constructor|].
  cbn [nodes_x]. constructor.
  - exists points, (lout ++ rout ++ yout ++ diagram_log Voronoi by_y).
    now apply (built_x_Dict Hne Hs Hm Hn Hl Hr Hy Hby).
  - apply Forall_app. now split.
Qed.

(** The list sorted by y that a node carries. *)
Lemma built_x_points_sorted_by_y points t out :
  built_x points t out ->
  node_points_sorted_by_y t = list_sort key_y (list_sort key_x points).
Proof.
  destruct 1; [reflexivity|]. simpl. now subst.
Qed.

Lemma built_x_voronoi points t out :
  built_x points t out ->
  node_voronoi t =
  diagram_of Voronoi (list_sort key_y (list_sort key_x points)).
Proof.
  destruct 1; [reflexivity|]. simpl. now subst.
Qed.

End BuilderFacts.

(** ** Shapes do not depend on the geometry service *)

Section TwoServices.

Variables (D1 E1 : Type) (V1 : list (Z * Z) -> D1 + E1).
Variables (D2 E2 : Type) (V2 : list (Z * Z) -> D2 + E2).

Lemma built_y_shape points t1 out1 :
  built_y V1 points t1 out1 ->
  forall t2 out2, built_y V2 points t2 out2 -> shape_of_y t1 = shape_of_y t2.
Proof.
  induction 1 as [|points sorted mid point lt rt lout rout
                   Hne Hs Hm Hn _ IHl _ IHr];
    intros t2 out2 H2.
  - inversion H2; subst; [reflexivity|congruence].
  - inversion H2 as [|? sorted' mid' point' lt' rt' lout' rout'
                      _ Hs' Hm' Hn' Hl' Hr'];
      subst; [congruence|].
    rewrite Hn in Hn'. inversion Hn'; subst. simpl.
    now rewrite (IHl _ _ Hl'), (IHr _ _ Hr').
Qed.

Lemma built_x_shape points t1 out1 :
  built_x V1 points t1 out1 ->
  forall t2 out2, built_x V2 points t2 out2 -> shape_of_x t1 = shape_of_x t2.
Proof.
  induction 1 as [|points sorted mid point lt rt lout rout yt yout by_y
                   Hne Hs Hm Hn _ IHl _ IHr Hy Hby];
    intros t2 out2 H2.
  - inversion H2; subst; [reflexivity|congruence].
  - inversion H2 as [|? sorted' mid' point' lt' rt' lout' rout' yt' yout' by_y'
                      _ Hs' Hm' Hn' Hl' Hr' Hy' Hby'];
      subst; [congruence|].
    rewrite Hn in Hn'. inversion Hn'; subst. simpl.
    now rewrite (IHl _ _ Hl'), (IHr _ _ Hr'), (built_y_shape _ _ _ Hy _ _ Hy').
Qed.

End TwoServices.

(** ** The traversal *)

Section QueryFacts.

Variable Diagram : Type.
Variable Exception : Type.

Local Abbreviation tree_x := (tree_x Diagram).

Lemma _query_tree_visited (node : tree_x) (query_point : Node) :
  forall visited_nodes,
    _query_tree node query_point visited_nodes =
    visited_nodes ++ visited_path node query_point.
Proof.
  induction node as [|point l IHl r IHr yt by_y v]; intros visited_nodes.
  - simpl. now rewrite app_nil_r.
  - cbn [_query_tree visited_path].
    destruct (key_x query_point <=? key_x point)%Z;
      [rewrite IHl|rewrite IHr]; now rewrite <- app_assoc.
Qed.

Lemma visited_path_descends (root : tree_x) (target : Node) :
  descends target root (visited_path root target).
Proof.
  induction root as [|point l IHl r IHr yt by_y v]; [reflexivity|].
  cbn [visited_path descends next_node].
  repeat split; [discriminate|].
  destruct (key_x target <=? key_x point)%Z; assumption.
Qed.

Lemma visited_path_height (root : tree_x) (target : Node) :
  (Z.of_nat (length (visited_path root target)) <= height_x root + 1)%Z.
Proof.
  induction root as [|point l IHl r IHr yt by_y v]; [simpl; lia|].
  cbn [visited_path height_x length].
  destruct (key_x target <=? key_x point)%Z; lia.
Qed.

Lemma visited_path_size (root : tree_x) (target : Node) :
  length (visited_path root target) <= size_x root.
Proof.
  induction root as [|point l IHl r IHr yt by_y v]; [simpl; lia|].
  cbn [visited_path size_x length].
  destruct (key_x target <=? key_x point)%Z; lia.
Qed.

(** From the root the walk goes into one child only. *)
Lemma visited_path_child (point : Node) (l r : tree_x) yt by_y v target :
  length (visited_path (DictX point l r yt by_y v) target) <=
  1 + Nat.max (size_x l) (size_x r).
Proof.
  cbn [visited_path length].
  destruct (key_x target <=? key_x point)%Z.
  - pose proof (visited_path_size l target). lia.
  - pose proof (visited_path_size r target). lia.
Qed.

End QueryFacts.

(** ** The loop of the entry point *)

Lemma skipn_nth_error (A : Type) (l : list A) (k : nat) (a : A) :
  nth_error l k = Some a -> skipn k l = a :: skipn (S k) l.
Proof.
  revert k. induction l as [|b l IH]; intros [|k] H; simpl in *;
    try discriminate.
  - now inversion H.
  - now apply IH.
Qed.

Lemma main_loop_pairs (feature_space real_space : list (Z * Z)) :
  length feature_space <= length real_space ->
  forall n k points,
    k + n = length feature_space ->
    main_loop feature_space real_space (seq k n) points =
    Ok (points ++
        map (fun fr => make_node (fst fr) (snd fr))
            (combine (skipn k feature_space) (skipn k real_space))).
Proof.
  intros Hle. induction n as [|n IH]; intros k points Hk.
  - simpl. rewrite skipn_all2 by lia. simpl. now rewrite app_nil_r.
  - cbn [seq main_loop].
    destruct (nth_error feature_space k) as [f|] eqn:Ef;
      [|apply nth_error_None in Ef; lia].
    destruct (nth_error real_space k) as [r|] eqn:Er;
      [|apply nth_error_None in Er; lia].
    rewrite IH by lia.
    rewrite (skipn_nth_error _ _ _ _ Ef), (skipn_nth_error _ _ _ _ Er).
    simpl. now rewrite <- app_assoc.
Qed.

Lemma main_loop_raises (feature_space real_space : list (Z * Z)) :
  forall n k points,
    k + n = length feature_space ->
    k <= length real_space < length feature_space ->
    main_loop feature_space real_space (seq k n) points =
    Raised "IndexError"%string.
Proof.
  induction n as [|n IH]; intros k points Hk Hlt; [lia|].
  cbn [seq main_loop].
  destruct (nth_error feature_space k) as [f|]; [|reflexivity].
  destruct (nth_error real_space k) as [r|] eqn:Er; [|reflexivity].
  apply IH; [lia|].
  assert (k < length real_space) by (apply nth_error_Some; congruence).
  lia.
Qed.

(** ** The sort contract determines the result

    Two lists with non-decreasing keys that agree, key by key, on the
    elements of that key and their order are equal.  So every stable sort
    computes [list_sort], whatever its algorithm. *)

Section SortContract.

Variable key : Node -> Z.

Lemma sorted_by_head_le (a b : Node) (l : list Node) :
  sorted_by key (b :: l) -> In a (b :: l) -> (key b <= key a)%Z.
Proof.
  intros Hs [->|Hin]; [lia|].
  inversion Hs as [|? ? _ Hb]; subst.
  rewrite Forall_forall in Hb. now apply Hb.
Qed.

Lemma filter_key_head (k : Z) (a : Node) (l : list Node) :
  filter (fun p => (key p =? k)%Z) (a :: l) =
  if (key a =? k)%Z then a :: filter (fun p => (key p =? k)%Z) l
  else filter (fun p => (key p =? k)%Z) l.
Proof. reflexivity. Qed.

Lemma stable_sorted_unique (l1 : list Node) :
  forall l2,
    sorted_by key l1 -> sorted_by key l2 ->
    (forall k, filter (fun p => (key p =? k)%Z) l1 =
               filter (fun p => (key p =? k)%Z) l2) ->
    l1 = l2.
Proof.
  induction l1 as [|a l1 IH]; intros [|b l2] H1 H2 Hf.
  - reflexivity.
  - specialize (Hf (key b)). rewrite filter_key_head, Z.eqb_refl in Hf.
    discriminate.
  - specialize (Hf (key a)). rewrite filter_key_head, Z.eqb_refl in Hf.
    discriminate.
  - assert (Ha : In a (b :: l2)).
    { apply (proj1 (filter_In (fun p => (key p =? key a)%Z) a (b :: l2))).
      rewrite <- Hf, filter_key_head, Z.eqb_refl. now left. }
    assert (Hb : In b (a :: l1)).
    { apply (proj1 (filter_In (fun p => (key p =? key b)%Z) b (a :: l1))).
      rewrite Hf, filter_key_head, Z.eqb_refl. now left. }
    pose proof (sorted_by_head_le _ _ _ H2 Ha) as Hba.
    pose proof (sorted_by_head_le _ _ _ H1 Hb) as Hab.
    assert (Hk : key b = key a) by lia.
    pose proof (Hf (key a)) as Hfa.
    rewrite !filter_key_head, Hk, Z.eqb_refl in Hfa.
    inversion Hfa as [[Heq Htl]]. subst b.
    f_equal. apply IH.
    + now inversion H1.
    + now inversion H2.
    + intros k. destruct (Z.eq_dec (key a) k) as [<-|Hne]; [exact Htl|].
      specialize (Hf k). rewrite !filter_key_head in Hf.
      apply Z.eqb_neq in Hne. now rewrite Hne in Hf.
Qed.

Lemma list_sort_unique (l sorted : list Node) :
  sorted_by key sorted ->
  (forall k, filter (fun p => (key p =? k)%Z) sorted =
             filter (fun p => (key p =? k)%Z) l) ->
  sorted = list_sort key l.
Proof.
  intros Hs Hf. apply stable_sorted_unique; [exact Hs|apply list_sort_sorted|].
  intros k. rewrite Hf. symmetry. apply list_sort_stable.
Qed.

End SortContract.

(** * The claims *)

(** ** C1: the traversal *)

(** C1, as stated, fails: [query] does not return the visited path.  On the
    one-node tree over the point (0, 0) the visited path is that node, and
    the value of [query] is [None]. *)
Lemma query_returns_no_path :
  let root :=
    DictX (pt 0 0) (NoneX _) (NoneX _) (DictY (pt 0 0) (NoneY _) (NoneY _) None)
          [pt 0 0] (@None (list (Z * Z))) in
  RangeTree2D voronoi_ok [pt 0 0] = Ok (root, [pt 0 0], []) /\
  visited_path root (pt 0 0) = [root] /\
  snd (@query _ string root (pt 0 0)) <> Some (visited_path root (pt 0 0)).
Proof. repeat split. discriminate. Qed.

(** C1, amended: for every root and target, [_query_tree] appends the visited
    path to [visited_nodes]: the walk starts at the root, stops at an absent
    node, and otherwise records the current node and goes left when the
    target's feature x is at most the median's feature x, else right; the
    path is in root-to-leaf order.  [query] hands the nodes of this path, in
    that order, to [_visualize_voronoi] and returns nothing. *)
Theorem query_visits_path (Diagram Exception : Type)
    (root : tree_x Diagram) (target : Node) :
  (forall visited_nodes,
     _query_tree root target visited_nodes =
     visited_nodes ++ visited_path root target) /\
  _query_tree root target [] = visited_path root target /\
  descends target root (visited_path root target) /\
  @query Diagram Exception root target =
    (PrintVisualizingAll Diagram Exception ::
     flat_map (fun node =>
                 @_visualize_voronoi Diagram Exception (node_voronoi node)
                   (node_points_sorted_by_y node) (Some target))
              (visited_path root target),
     None).
Proof.
  repeat split.
  - apply _query_tree_visited.
  - apply (_query_tree_visited _ root target []).
  - apply visited_path_descends.
  - unfold query. now rewrite (_query_tree_visited _ root target []).
Qed.

(** The program's own run: with 15 points [mid] is 7, the root holds the
    point with feature position (1, 6), and the query for (4, 6) visits
    four nodes. *)
Example sample_run :
  exists t final out,
    main_tree voronoi_ok feature_space real_space = Ok (t, final, out) /\
    node_point t = Some (make_node (1, 6)%Z (6, 7)%Z) /\
    map (@node_point _) (_query_tree t (pt 4 6) []) =
      [Some (make_node (1, 6)%Z (6, 7)%Z);
       Some (make_node (3, -1)%Z (9, 1)%Z);
       Some (make_node (4, 2)%Z (0, 3)%Z);
       Some (make_node (3, 7)%Z (6, 2)%Z)].
Proof.
  eexists _, _, _. split; [vm_compute; reflexivity|].
  split; reflexivity.
Qed.

(** ** C2: the split *)

(** C2: an empty input yields [None]; for a non-empty input of n points the
    build sorts the points by feature x (a stable, ascending permutation of
    the input), takes [mid = n / 2], stores element [mid] as the node's
    point, and builds the left child from the elements before [mid] and the
    right child from the elements after [mid]. *)
Theorem build_tree_on_x_split (Diagram Exception : Type)
    (Voronoi : list (Z * Z) -> Diagram + Exception) (points : list Node) :
  RangeTree2D Voronoi [] = Ok (NoneX Diagram, [], []) /\
  (0 < length points ->
   let sorted := list_sort key_x points in
   let mid := length points / 2 in
   sorted_by key_x sorted /\
   Permutation points sorted /\
   (forall k, filter (fun p => (key_x p =? k)%Z) sorted =
              filter (fun p => (key_x p =? k)%Z) points) /\
   exists point lt lfinal lout rt rfinal rout yt by_y vor final out,
     nth_error sorted mid = Some point /\
     RangeTree2D Voronoi (firstn mid sorted) = Ok (lt, lfinal, lout) /\
     RangeTree2D Voronoi (skipn (mid + 1) sorted) = Ok (rt, rfinal, rout) /\
     RangeTree2D Voronoi points =
       Ok (DictX point lt rt yt by_y vor, final, out)).
Proof.
  split; [reflexivity|]. intros Hlen sorted mid.
  split; [apply list_sort_sorted|].
  split; [apply list_sort_perm|].
  split; [intros k; apply list_sort_stable|].
  destruct (RangeTree2D_built _ _ Voronoi points) as (t & out & E & B).
  inversion B as [|? sorted' mid' point lt rt lout rout yt yout by_y
                   Hne Hs Hm Hn Hl Hr Hy Hby]; subst; [simpl in Hlen; lia|].
  rewrite list_sort_length in Hn, Hl, Hr.
  do 12 eexists. repeat split.
  - exact Hn.
  - exact (built_x_RangeTree2D _ _ _ _ _ _ Hl).
  - exact (built_x_RangeTree2D _ _ _ _ _ _ Hr).
  - exact E.
Qed.

(** The split on the two points (0,1) and (1,0): the root holds (1,0) and
    has no right child. *)
Lemma build_tree_on_x_split_witness :
  0 < length [pt 0 1; pt 1 0] /\
  exists lt yt by_y vor final out,
    RangeTree2D voronoi_ok [pt 0 1; pt 1 0] =
      Ok (DictX (pt 1 0) lt (NoneX _) yt by_y vor, final, out).
Proof.
  assert (H : 0 < length [pt 0 1; pt 1 0]) by (simpl; lia).
  split; [exact H|].
  destruct (build_tree_on_x_split _ _ voronoi_ok [pt 0 1; pt 1 0]) as [_ S].
  destruct (S H) as (_ & _ & _ & point & lt & lfinal & lout & rt & rfinal
                     & rout & yt & by_y & vor & final & out & Hn & _ & Hr & E).
  vm_compute in Hn. inversion Hn; subst point.
  vm_compute in Hr. inversion Hr; subst rt.
  exists lt, yt, by_y, vor, final, out. exact E.
Defined.

(** ** C3: coordinate lists of unequal lengths *)

(** C3, as stated, fails: with the first 14 feature-space coordinates and
    the 15 real-space coordinates of the program, no error is signalled and
    a tree of 14 nodes is built. *)
Lemma mismatched_lengths_build_a_tree :
  length (firstn 14 feature_space) = 14 /\
  length real_space = 15 /\
  exists t final out,
    main_tree voronoi_ok (firstn 14 feature_space) real_space =
      Ok (t, final, out) /\
    size_x t = 14.
Proof.
  split; [reflexivity|]. split; [reflexivity|].
  eexists _, _, _. split; vm_compute; reflexivity.
Qed.

(** C3, amended: the entry point has no length check.  When the
    feature-space list is not longer than the real-space list, the points
    are the pairs of the feature-space coordinates with the real-space
    coordinates at the same indices, the real-space coordinates beyond
    them are ignored, and a tree of as many nodes as feature-space
    coordinates is built.  When the feature-space list is longer, pairing
    the coordinates raises [IndexError] before any tree is built. *)
Theorem main_unequal_lengths (Diagram Exception : Type)
    (Voronoi : list (Z * Z) -> Diagram + Exception)
    (feature_space real_space : list (Z * Z)) :
  (length feature_space <= length real_space ->
   main_points feature_space real_space =
     Ok (map (fun fr => make_node (fst fr) (snd fr))
             (combine feature_space real_space)) /\
   exists t final out,
     main_tree Voronoi feature_space real_space = Ok (t, final, out) /\
     size_x t = length feature_space) /\
  (length real_space < length feature_space ->
   main_points feature_space real_space = Raised "IndexError"%string /\
   main_tree Voronoi feature_space real_space = Raised "IndexError"%string).
Proof.
  split; intros Hlen.
  - assert (E : main_points feature_space real_space =
                Ok (map (fun fr => make_node (fst fr) (snd fr))
                        (combine feature_space real_space))).
    { unfold main_points.
      now rewrite (main_loop_pairs _ _ Hlen (length feature_space) 0 []). }
    split; [exact E|].
    unfold main_tree. rewrite E.
    destruct (RangeTree2D_built _ _ Voronoi
                (map (fun fr => make_node (fst fr) (snd fr))
                     (combine feature_space real_space)))
      as (t & out & Et & B).
    eexists t, _, out. split; [exact Et|].
    rewrite (built_x_size _ _ _ _ _ _ B), length_map, length_combine. lia.
  - assert (E : main_points feature_space real_space =
                Raised "IndexError"%string).
    { unfold main_points. apply main_loop_raises; lia. }
    split; [exact E|]. unfold main_tree. now rewrite E.
Qed.

(** The program's lists with one coordinate dropped on either side. *)
Lemma main_unequal_lengths_witness :
  (length (firstn 14 feature_space) <= length real_space /\
   exists t final out,
     main_tree voronoi_ok (firstn 14 feature_space) real_space =
       Ok (t, final, out) /\
     size_x t = length (firstn 14 feature_space)) /\
  (length (firstn 14 real_space) < length feature_space /\
   main_tree voronoi_ok feature_space (firstn 14 real_space) =
     Raised "IndexError"%string).
Proof.
  split.
  - assert (H : length (firstn 14 feature_space) <= length real_space)
      by (simpl; lia).
    split; [exact H|].
    exact (proj2 (proj1 (main_unequal_lengths _ _ voronoi_ok
                           (firstn 14 feature_space) real_space) H)).
  - assert (H : length (firstn 14 real_space) < length feature_space)
      by (simpl; lia).
    split; [exact H|].
    exact (proj2 (proj2 (main_unequal_lengths _ _ voronoi_ok
                           feature_space (firstn 14 real_space)) H)).
Defined.

(** ** C4: what building does to its input *)

(** C4, as stated, fails: the list [(0,1), (1,0)] is in the order of its
    x coordinates, and after the build it holds [(1,0), (0,1)]. *)
Lemma build_reorders_input :
  exists t out,
    RangeTree2D voronoi_ok [pt 0 1; pt 1 0] = Ok (t, [pt 1 0; pt 0 1], out) /\
    [pt 1 0; pt 0 1] <> [pt 0 1; pt 1 0].
Proof.
  eexists _, _. split; [vm_compute; reflexivity|discriminate].
Qed.

(** C4, amended: building a tree always returns; it prints nothing but the
    failure messages of the diagram computation, and it sorts the caller's
    list in place: the list ends up with the same elements, in
    non-decreasing order of feature y (the stable sort by y of the stable
    sort by x of the input).  The list is unchanged when it was in
    non-decreasing order of both x and y.  [_build_tree_on_y] likewise
    leaves the list it is given sorted by y. *)
Theorem build_effects (Diagram Exception : Type)
    (Voronoi : list (Z * Z) -> Diagram + Exception) (points : list Node) :
  (exists t final out,
     RangeTree2D Voronoi points = Ok (t, final, out) /\
     final = list_sort key_y (list_sort key_x points) /\
     Permutation points final /\
     sorted_by key_y final /\
     Forall (@is_voronoi_failure Diagram Exception) out /\
     (sorted_by key_x points -> sorted_by key_y points -> final = points)) /\
  (forall fuel, length points < fuel ->
   exists t out,
     _build_tree_on_y Voronoi fuel points =
       Ok (t, list_sort key_y points, out) /\
     Forall (@is_voronoi_failure Diagram Exception) out).
Proof.
  split.
  - destruct (RangeTree2D_built _ _ Voronoi points) as (t & out & E & B).
    eexists t, _, out. split; [exact E|]. split; [reflexivity|].
    split; [|split; [|split]].
    + eapply perm_trans; apply list_sort_perm.
    + apply list_sort_sorted.
    + exact (built_x_log _ _ _ _ _ _ B).
    + intros Hx Hy. now rewrite (list_sort_id _ _ Hx), (list_sort_id _ _ Hy).
  - intros fuel Hlen.
    destruct (_build_tree_on_y_run _ _ Voronoi fuel points Hlen)
      as (t & out & E & B).
    exists t, out. split; [exact E|exact (built_y_log _ _ _ _ _ _ B)].
Qed.

(** The list [(0,0), (1,1)] is in order of both coordinates and is left as
    it was; the tree on y of [(0,1), (1,0)] leaves [(1,0), (0,1)]. *)
Lemma build_effects_witness :
  (sorted_by key_x [pt 0 0; pt 1 1] /\ sorted_by key_y [pt 0 0; pt 1 1] /\
   exists t out,
     RangeTree2D voronoi_ok [pt 0 0; pt 1 1] = Ok (t, [pt 0 0; pt 1 1], out)) /\
  (length [pt 0 1; pt 1 0] < 3 /\
   exists t out,
     _build_tree_on_y voronoi_ok 3 [pt 0 1; pt 1 0] =
       Ok (t, [pt 1 0; pt 0 1], out)).
Proof.
  split.
  - assert (Hx : sorted_by key_x [pt 0 0; pt 1 1]).
    { repeat constructor; vm_compute; discriminate. }
    assert (Hy : sorted_by key_y [pt 0 0; pt 1 1]).
    { repeat constructor; vm_compute; discriminate. }
    split; [exact Hx|]. split; [exact Hy|].
    destruct (proj1 (build_effects _ _ voronoi_ok [pt 0 0; pt 1 1]))
      as (t & final & out & E & _ & _ & _ & _ & Hsame).
    exists t, out. rewrite <- (Hsame Hx Hy) at 2. exact E.
  - assert (H : length [pt 0 1; pt 1 0] < 3) by (simpl; lia).
    split; [exact H|].
    destruct (proj2 (build_effects _ _ voronoi_ok [pt 0 1; pt 1 0]) 3 H)
      as (t & out & E & _).
    exists t, out. exact E.
Defined.

(** ** C5: how many nodes a query visits *)

(** C5, as stated, fails for n = 2: in the tree built from (0,0) and (1,0)
    the query for (0,0) visits both nodes. *)
Lemma query_visits_both_of_two :
  1 < length [pt 0 0; pt 1 0] /\
  exists t final out,
    RangeTree2D voronoi_ok [pt 0 0; pt 1 0] = Ok (t, final, out) /\
    length (_query_tree t (pt 0 0) []) = 2 /\
    ~ length (_query_tree t (pt 0 0) []) < length [pt 0 0; pt 1 0].
Proof.
  split; [simpl; lia|].
  eexists _, _, _. split; [vm_compute; reflexivity|].
  split; [reflexivity|]. vm_compute. lia.
Qed.

(** C5, amended: for a tree of height h a query visits at most h + 1
    nodes; for a tree built from n points it visits at most n nodes, and
    strictly fewer than n when n > 2. *)
Theorem query_visit_bounds (Diagram Exception : Type)
    (Voronoi : list (Z * Z) -> Diagram + Exception) :
  (forall (root : tree_x Diagram) (target : Node),
     (Z.of_nat (length (_query_tree root target [])) <= height_x root + 1)%Z) /\
  (forall (points : list Node) (target : Node),
     exists t final out,
       RangeTree2D Voronoi points = Ok (t, final, out) /\
       length (_query_tree t target []) <= length points /\
       (2 < length points ->
        length (_query_tree t target []) < length points)).
Proof.
  split.
  - intros root target. rewrite (_query_tree_visited _ root target []).
    apply visited_path_height.
  - intros points target.
    destruct (RangeTree2D_built _ _ Voronoi points) as (t & out & E & B).
    eexists t, _, out. split; [exact E|].
    rewrite (_query_tree_visited _ t target []). cbn [app].
    split.
    + rewrite <- (built_x_size _ _ _ _ _ _ B). apply visited_path_size.
    + intros Hlen.
      inversion B as [|? sorted mid point lt rt lout rout yt yout by_y
                       Hne Hs Hm Hn Hl Hr Hy Hby]; subst; [simpl in Hlen; lia|].
      pose proof (visited_path_child _ point lt rt yt
                    (list_sort key_y (list_sort key_x points))
                    (diagram_of Voronoi
                       (list_sort key_y (list_sort key_x points)))
                    target) as Hc.
      rewrite (built_x_size _ _ _ _ _ _ Hl), (built_x_size _ _ _ _ _ _ Hr)
        in Hc.
      rewrite length_firstn, length_skipn, list_sort_length in Hc.
      pose proof (Nat.div_mod_eq (length points) 2).
      pose proof (Nat.mod_upper_bound (length points) 2).
      lia.
Qed.

(** Three points: the query for (0,0) visits fewer than three nodes. *)
Lemma query_visit_bounds_witness :
  2 < length [pt 0 0; pt 1 0; pt 2 0] /\
  exists t final out,
    RangeTree2D voronoi_ok [pt 0 0; pt 1 0; pt 2 0] = Ok (t, final, out) /\
    length (_query_tree t (pt 0 0) []) < length [pt 0 0; pt 1 0; pt 2 0].
Proof.
  assert (H : 2 < length [pt 0 0; pt 1 0; pt 2 0]) by (simpl; lia).
  split; [exact H|].
  destruct (proj2 (query_visit_bounds _ _ voronoi_ok)
              [pt 0 0; pt 1 0; pt 2 0] (pt 0 0))
    as (t & final & out & E & _ & Hlt).
  exists t, final, out. split; [exact E|exact (Hlt H)].
Defined.

(** ** C6: one node per input point *)

(** C6: the tree built from n points has exactly n nodes, and the points
    stored in its nodes, one per node, are the input points, each as often
    as it occurs in the input. *)
Theorem node_count (Diagram Exception : Type)
    (Voronoi : list (Z * Z) -> Diagram + Exception) (points : list Node) :
  exists t final out,
    RangeTree2D Voronoi points = Ok (t, final, out) /\
    size_x t = length points /\
    length (medians_x t) = size_x t /\
    Permutation (medians_x t) points.
Proof.
  destruct (RangeTree2D_built _ _ Voronoi points) as (t & out & E & B).
  eexists t, _, out. split; [exact E|].
  pose proof (built_x_size _ _ _ _ _ _ B) as Hs.
  pose proof (built_x_medians _ _ _ _ _ _ B) as Hp.
  repeat split; try assumption.
  rewrite Hs. now apply Permutation_length.
Qed.

(** ** C7: the list sorted by y at every node *)


(** ** C8: no diagram for small or degenerate subsets *)

(** Formatting the points of the failure message: a conversion either
    succeeds, and gives what [__repr__] gives, or raises [ValueError]. *)
Lemma str_int_cases (n : Z) :
  (printable_int n /\ str_int n = Ok (repr_int n)) \/
  (~ printable_int n /\ str_int n = Raised "ValueError"%string).
Proof.
  unfold str_int, printable_int.
  destruct (10 ^ Z.of_nat int_max_str_digits <=? Z.abs n)%Z eqn:E.
  - right. apply Z.leb_le in E. split; [lia|reflexivity].
  - left. apply Z.leb_gt in E. split; [lia|reflexivity].
Qed.

Lemma Point_repr_checked_cases (p : Point) :
  (printable_int (x p) /\ printable_int (y p) /\
   Point_repr_checked p = Ok (Point_repr p)) \/
  (~ (printable_int (x p) /\ printable_int (y p)) /\
   Point_repr_checked p = Raised "ValueError"%string).
Proof.
  unfold Point_repr_checked, Point_repr, result_bind.
  destruct (str_int_cases (x p)) as [[Hx ->]|[Hx ->]];
    [|right; split; [tauto|reflexivity]].
  destruct (str_int_cases (y p)) as [[Hy ->]|[Hy ->]];
    [|right; split; [tauto|reflexivity]].
  left. auto.
Qed.

Lemma Node_repr_checked_cases (n : Node) :
  (printable n /\ Node_repr_checked n = Ok (Node_repr n)) \/
  (~ printable n /\ Node_repr_checked n = Raised "ValueError"%string).
Proof.
  unfold Node_repr_checked, Node_repr, printable, result_bind.
  destruct (Point_repr_checked_cases (feature_point n))
    as [(Hfx & Hfy & ->)|[Hf ->]];
    [|right; split; [tauto|reflexivity]].
  destruct (Point_repr_checked_cases (real_point n))
    as [(Hrx & Hry & ->)|[Hr ->]];
    [|right; split; [tauto|reflexivity]].
  left. auto.
Qed.

Lemma join_repr_checked_cases (points : list Node) :
  (Forall printable points /\ exists s, join_repr_checked points = Ok s) \/
  (~ Forall printable points /\
   join_repr_checked points = Raised "ValueError"%string).
Proof.
  induction points as [|p rest IH].
  - left. split; [constructor|]. eexists. reflexivity.
  - destruct (Node_repr_checked_cases p) as [[Hp Ep]|[Hp Ep]].
    + destruct rest as [|q rest].
      * left. split; [constructor; [exact Hp|constructor]|].
        cbn [join_repr_checked]. rewrite Ep. eexists. reflexivity.
      * cbn [join_repr_checked]. cbn [join_repr_checked] in IH.
        rewrite Ep. cbn [result_bind].
        destruct IH as [[Hall [s Es]]|[Hall Es]].
        -- left. split; [now constructor|].
           rewrite Es. cbn [result_bind]. eexists. reflexivity.
        -- right. split; [|now rewrite Es].
           intros H. apply Hall. now inversion H.
    + right. split; [intros H; apply Hp; now inversion H|].
      destruct rest as [|q rest]; cbn [join_repr_checked];
        rewrite Ep; reflexivity.
Qed.

Lemma list_repr_checked_cases (points : list Node) :
  (Forall printable points /\ exists s, list_repr_checked points = Ok s) \/
  (~ Forall printable points /\
   list_repr_checked points = Raised "ValueError"%string).
Proof.
  unfold list_repr_checked.
  destruct (join_repr_checked_cases points) as [[Hall [s ->]]|[Hall ->]].
  - left. split; [exact Hall|]. eexists. reflexivity.
  - right. split; [exact Hall|reflexivity].
Qed.

(** What [_compute_voronoi] does once the message is formatted: below 4
    points and when the service answers it prints nothing; when the
    service raises it returns [None] if every coordinate can be printed,
    and lets [ValueError] through if one cannot.  Wherever it returns, it
    returns what [_compute_voronoi] returns. *)
Lemma _compute_voronoi_printing_cases (Diagram Exception : Type)
    (Voronoi : list (Z * Z) -> Diagram + Exception) (points : list Node) :
  (length points < 4 ->
   _compute_voronoi_printing Voronoi points = Ok (None, points, [])) /\
  (forall vor, 4 <= length points ->
   Voronoi (real_points_as_float points) = inl vor ->
   _compute_voronoi_printing Voronoi points = Ok (Some vor, points, [])) /\
  (forall e, 4 <= length points ->
   Voronoi (real_points_as_float points) = inr e ->
   Forall printable points ->
   _compute_voronoi_printing Voronoi points =
     Ok (None, points, [PrintVoronoiFailed Diagram points e])) /\
  (forall e, 4 <= length points ->
   Voronoi (real_points_as_float points) = inr e ->
   ~ Forall printable points ->
   _compute_voronoi_printing Voronoi points = Raised "ValueError"%string) /\
  (forall r, _compute_voronoi_printing Voronoi points = Ok r ->
   _compute_voronoi Voronoi points = Ok r).
Proof.
  unfold _compute_voronoi_printing, _compute_voronoi, bind, get_points, ret,
    print.
  repeat split.
  - intros H. apply Nat.ltb_lt in H. now rewrite H.
  - intros vor H Hv. apply Nat.ltb_ge in H. now rewrite H, Hv.
  - intros e H Hv Hall. apply Nat.ltb_ge in H. rewrite H, Hv.
    destruct (list_repr_checked_cases points) as [[_ [s ->]]|[Hn _]];
      [reflexivity|contradiction].
  - intros e H Hv Hall. apply Nat.ltb_ge in H. rewrite H, Hv.
    destruct (list_repr_checked_cases points) as [[Hp _]|[_ ->]];
      [contradiction|reflexivity].
  - intros r. destruct (length points <? 4); [auto|].
    destruct (Voronoi (real_points_as_float points)) as [vor|e]; [auto|].
    destruct (list_repr_checked points); [auto|discriminate|discriminate].
Qed.

(** In a tree that a build returns, every node covering fewer than 4 points
    has no diagram, in the primary tree and in the trees on y. *)
Lemma small_nodes_have_no_diagram (Diagram Exception : Type)
    (Voronoi : list (Z * Z) -> Diagram + Exception)
    (points : list Node) t final out :
  RangeTree2D Voronoi points = Ok (t, final, out) ->
  gated_x t /\
  Forall (fun node =>
            length (node_points_sorted_by_y node) < 4 ->
            node_voronoi node = None)
         (nodes_x t).
Proof.
  intros E.
  destruct (RangeTree2D_built _ _ Voronoi points) as (t' & out' & E' & B).
  rewrite E in E'. injection E' as -> _ ->.
  split; [exact (built_x_gated _ _ _ _ _ _ B)|].
  eapply Forall_impl; [|exact (built_x_nodes _ _ _ _ _ _ B)].
  intros node (subset & sout & Bn).
  rewrite (built_x_points_sorted_by_y _ _ _ _ _ _ Bn).
  rewrite (built_x_voronoi _ _ _ _ _ _ Bn).
  apply diagram_of_small.
Qed.

Lemma wide_points_not_printable : ~ Forall printable wide_points.
Proof.
  intros H. rewrite Forall_forall in H.
  assert (Hin : In (mkNode (mkPoint (10 ^ Z.of_nat int_max_str_digits) 0)
                           (mkPoint 3 3)) wide_points).
  { unfold wide_points. right. right. right. left. reflexivity. }
  destruct (H _ Hin) as [Hx _].
  unfold printable_int in Hx. cbn [feature_point x] in Hx.
  rewrite Z.abs_eq in Hx by (apply Z.pow_nonneg; lia).
  lia.
Qed.

(** C8: the claim does not hold of the code as it is.  The handler of
    [_compute_voronoi] prints the points before it returns [None], outside
    the [try].  On four points, collinear in real space so that the
    geometry service raises, one of which has a feature coordinate of 4301
    decimal digits, formatting the message raises [ValueError], and the
    diagram computation lets it through to the tree builder instead of
    returning [None]. *)
Theorem compute_voronoi_raises_in_handler :
  4 <= length wide_points /\
  voronoi_fails (real_points_as_float wide_points) =
    inr "QhullError"%string /\
  _compute_voronoi_printing voronoi_fails wide_points =
    Raised "ValueError"%string /\
  ~ (exists out,
       _compute_voronoi_printing voronoi_fails wide_points =
         Ok (None, wide_points, out)).
Proof.
  assert (Hlen : 4 <= length wide_points) by (unfold wide_points; simpl; lia).
  assert (Hv : voronoi_fails (real_points_as_float wide_points) =
               inr "QhullError"%string) by reflexivity.
  assert (Hr : _compute_voronoi_printing voronoi_fails wide_points =
               Raised "ValueError"%string).
  { apply (proj1 (proj2 (proj2 (proj2
             (_compute_voronoi_printing_cases _ _ voronoi_fails
                wide_points)))) "QhullError"%string Hlen Hv).
    exact wide_points_not_printable. }
  split; [exact Hlen|]. split; [exact Hv|]. split; [exact Hr|].
  intros [out E]. rewrite Hr in E. discriminate.
Qed.

(** ** C9: determinism *)

(** C9: the medians and the shape of the tree, at every level, are
    determined by the input list alone: two builds from the same list of
    points, whatever the geometry service answers in each, return trees
    with the same medians and children everywhere (also in the trees on y
    and in the lists sorted by y) and leave the list in the same state. *)
Theorem build_deterministic
    (D1 E1 : Type) (V1 : list (Z * Z) -> D1 + E1)
    (D2 E2 : Type) (V2 : list (Z * Z) -> D2 + E2) (points : list Node) :
  exists t1 out1 t2 out2 final,
    RangeTree2D V1 points = Ok (t1, final, out1) /\
    RangeTree2D V2 points = Ok (t2, final, out2) /\
    shape_of_x t1 = shape_of_x t2.
Proof.
  destruct (RangeTree2D_built _ _ V1 points) as (t1 & out1 & E1' & B1).
  destruct (RangeTree2D_built _ _ V2 points) as (t2 & out2 & E2' & B2).
  exists t1, out1, t2, out2, (list_sort key_y (list_sort key_x points)).
  repeat split; try assumption.
  exact (built_x_shape _ _ _ _ _ _ _ _ _ B1 _ _ B2).
Qed.

(** A second build from the same list object starts from the list as the
    first build left it, which is another order when the first build
    reordered it: with two points of equal x the two builds select
    different medians. *)
Lemma rebuild_same_list_object :
  exists t1 out1 final t2 out2 final',
    RangeTree2D voronoi_ok [pt 0 1; pt 0 0] = Ok (t1, final, out1) /\
    RangeTree2D voronoi_ok final = Ok (t2, final', out2) /\
    visited_path t1 (pt 1 0) = [t1] /\
    visited_path t2 (pt 1 0) = [t2] /\
    medians_x t1 = [pt 0 1; pt 0 0] /\
    medians_x t2 = [pt 0 0; pt 0 1] /\
    shape_of_x t1 <> shape_of_x t2.
Proof.
  eexists _, _, _, _, _, _.
  split; [vm_compute; reflexivity|].
  split; [vm_compute; reflexivity|].
  repeat split; discriminate.
Qed.

(** ** C10: the search-tree order *)

(** C10: in every built tree, at every primary node the points of the left
    subtree have feature x at most the median's and the points of the right
    subtree have feature x at least the median's; the same holds on feature
    y at every node of every tree on y. *)
Theorem search_tree_order (Diagram Exception : Type)
    (Voronoi : list (Z * Z) -> Diagram + Exception) (points : list Node) :
  exists t final out,
    RangeTree2D Voronoi points = Ok (t, final, out) /\ ordered_x t.
Proof.
  destruct (RangeTree2D_built _ _ Voronoi points) as (t & out & E & B).
  eexists t, _, out. split; [exact E|exact (built_x_ordered _ _ _ _ _ _ B)].
Qed.

(** * Further properties of the code *)

(** ** More on sorted lists *)

Section SortedSlices.

Variable key : Node -> Z.

Lemma sorted_by_app (l1 l2 : list Node) :
  sorted_by key (l1 ++ l2) -> sorted_by key l1 /\ sorted_by key l2.
Proof.
  unfold sorted_by. induction l1 as [|a l1 IH]; simpl; intros H.
  - split; [constructor|exact H].
  - inversion H as [|? ? Hs Ha]; subst. destruct (IH Hs) as [H1 H2].
    split; [|exact H2]. constructor; [exact H1|].
    rewrite Forall_app in Ha. tauto.
Qed.

Lemma sorted_by_firstn (n : nat) (l : list Node) :
  sorted_by key l -> sorted_by key (firstn n l).
Proof.
  intros H. rewrite <- (firstn_skipn n l) in H.
  now apply sorted_by_app in H.
Qed.

Lemma sorted_by_skipn (n : nat) (l : list Node) :
  sorted_by key l -> sorted_by key (skipn n l).
Proof.
  intros H. rewrite <- (firstn_skipn n l) in H.
  now apply sorted_by_app in H.
Qed.

(** Inserting an element that is not above any element puts it in front. *)
Lemma insert_by_front (a : Node) (l : list Node) :
  Forall (fun b => (key a <= key b)%Z) l -> insert_by key a l = a :: l.
Proof.
  destruct 1 as [|b l Hb _]; [reflexivity|].
  simpl. apply Z.leb_le in Hb. now rewrite Hb.
Qed.

(** Filtering commutes with the sort. *)
Lemma filter_insert_by (f : Node -> bool) (a : Node) (l : list Node) :
  sorted_by key l ->
  filter f (insert_by key a l) =
  if f a then insert_by key a (filter f l) else filter f l.
Proof.
  unfold sorted_by. induction 1 as [|b l Hs IH Hb].
  - simpl. now destruct (f a).
  - cbn [insert_by]. destruct (key a <=? key b)%Z eqn:E.
    + change (filter f (a :: b :: l))
        with (if f a then a :: filter f (b :: l) else filter f (b :: l)).
      destruct (f a); [|reflexivity].
      symmetry. apply insert_by_front.
      apply Z.leb_le in E.
      apply Forall_forall. intros c Hc. apply filter_In in Hc.
      destruct Hc as [[->|Hc] _]; [exact E|].
      rewrite Forall_forall in Hb. specialize (Hb c Hc). lia.
    + change (filter f (b :: insert_by key a l))
        with (if f b then b :: filter f (insert_by key a l)
              else filter f (insert_by key a l)).
      rewrite IH. cbn [filter].
      destruct (f a), (f b); try reflexivity.
      cbn [insert_by]. now rewrite E.
Qed.

Lemma filter_list_sort (f : Node -> bool) (l : list Node) :
  filter f (list_sort key l) = list_sort key (filter f l).
Proof.
  induction l as [|a l IH]; [reflexivity|].
  cbn [list_sort fold_right].
  change (fold_right (insert_by key) [] l) with (list_sort key l).
  rewrite filter_insert_by by apply list_sort_sorted.
  rewrite IH. cbn [filter]. now destruct (f a).
Qed.

(** With pairwise distinct keys, at most one element has a given key. *)
Lemma filter_key_NoDup (k : Z) (l : list Node) :
  NoDup (map key l) -> length (filter (fun p => (key p =? k)%Z) l) <= 1.
Proof.
  induction l as [|a l IH]; simpl; intros H; [lia|].
  inversion H as [|? ? Hnotin Hnd]; subst.
  destruct (key a =? k)%Z eqn:E; [|now apply IH].
  apply Z.eqb_eq in E. subst k.
  assert (Hnil : filter (fun p => (key p =? key a)%Z) l = []).
  { destruct (filter (fun p => (key p =? key a)%Z) l) as [|b rest] eqn:Ef;
      [reflexivity|].
    assert (Hb : In b (filter (fun p => (key p =? key a)%Z) l))
      by (rewrite Ef; now left).
    apply filter_In in Hb. destruct Hb as [Hin Hk].
    apply Z.eqb_eq in Hk. exfalso. apply Hnotin.
    rewrite <- Hk. now apply in_map. }
  rewrite Hnil. simpl. lia.
Qed.

Lemma Permutation_filter_eq (f : Node -> bool) (l l' : list Node) :
  Permutation l l' -> Permutation (filter f l) (filter f l').
Proof.
  induction 1 as [|a l l' _ IH|a b l|l1 l2 l3 _ IH1 _ IH2]; simpl.
  - constructor.
  - destruct (f a); [now constructor|exact IH].
  - destruct (f a), (f b); try apply Permutation_refl. apply perm_swap.
  - now apply perm_trans with (filter f l2).
Qed.

(** The sort ignores the order of a list with pairwise distinct keys. *)
Lemma list_sort_Permutation (l l' : list Node) :
  Permutation l l' -> NoDup (map key l) ->
  list_sort key l = list_sort key l'.
Proof.
  intros Hp Hnd. apply stable_sorted_unique with (key := key);
    try apply list_sort_sorted.
  intros k. rewrite !list_sort_stable.
  pose proof (Permutation_filter_eq (fun p => (key p =? k)%Z) l l' Hp) as Hf.
  pose proof (filter_key_NoDup k l Hnd) as Hlen.
  destruct (filter (fun p => (key p =? k)%Z) l) as [|a [|b rest]].
  - now apply Permutation_nil in Hf.
  - now apply Permutation_length_1_inv in Hf.
  - simpl in Hlen. lia.
Qed.

End SortedSlices.

(** ** More on the call trees *)

Section TreeFacts.

Variable Diagram : Type.
Variable Exception : Type.
Variable Voronoi : list (Z * Z) -> Diagram + Exception.

Local Abbreviation built_y := (built_y Voronoi).
Local Abbreviation built_x := (built_x Voronoi).

(** Read from left to right, a built tree is the sorted list. *)
Lemma built_y_inorder points t out :
  built_y points t out -> medians_y t = list_sort key_y points.
Proof.
  induction 1 as [|points sorted mid point lt rt lout rout
                   Hne Hs Hm Hn _ IHl _ IHr];
    [reflexivity|].
  assert (Hsorted : sorted_by key_y sorted)
    by (subst sorted; apply list_sort_sorted).
  simpl. rewrite IHl, IHr.
  rewrite (list_sort_id _ _ (sorted_by_firstn key_y mid _ Hsorted)).
  rewrite (list_sort_id _ _ (sorted_by_skipn key_y (mid + 1) _ Hsorted)).
  rewrite <- (split_at _ _ _ Hn). exact Hs.
Qed.

Lemma built_x_inorder points t out :
  built_x points t out -> medians_x t = list_sort key_x points.
Proof.
  induction 1 as [|points sorted mid point lt rt lout rout yt yout by_y
                   Hne Hs Hm Hn _ IHl _ IHr Hy Hby];
    [reflexivity|].
  assert (Hsorted : sorted_by key_x sorted)
    by (subst sorted; apply list_sort_sorted).
  simpl. rewrite IHl, IHr.
  rewrite (list_sort_id _ _ (sorted_by_firstn key_x mid _ Hsorted)).
  rewrite (list_sort_id _ _ (sorted_by_skipn key_x (mid + 1) _ Hsorted)).
  rewrite <- (split_at _ _ _ Hn). exact Hs.
Qed.

(** The two slices around the median differ in length by at most one. *)
Lemma slices_balanced (l : list Node) :
  l <> [] ->
  length (skipn (length l / 2 + 1) l) <= length (firstn (length l / 2) l)
  <= S (length (skipn (length l / 2 + 1) l)).
Proof.
  intros Hne. rewrite length_firstn, length_skipn.
  assert (0 < length l) by (destruct l; [congruence|simpl; lia]).
  pose proof (Nat.div_mod_eq (length l) 2).
  pose proof (Nat.mod_upper_bound (length l) 2).
  lia.
Qed.

Lemma list_sort_nonempty (key : Node -> Z) (l : list Node) :
  l <> [] -> list_sort key l <> [].
Proof.
  intros Hne E. apply Hne. apply length_zero_iff_nil.
  now rewrite <- (list_sort_length key l), E.
Qed.

Lemma built_y_balanced points t out :
  built_y points t out -> balanced_y t.
Proof.
  induction 1 as [|points sorted mid point lt rt lout rout
                   Hne Hs Hm Hn Hl IHl Hr IHr];
    [exact I|].
  cbn [balanced_y]. repeat split; try assumption;
    rewrite (built_y_size _ _ _ _ _ _ Hl), (built_y_size _ _ _ _ _ _ Hr);
    subst mid; apply slices_balanced; subst sorted;
    now apply list_sort_nonempty.
Qed.

Lemma built_x_balanced points t out :
  built_x points t out -> balanced_x t.
Proof.
  induction 1 as [|points sorted mid point lt rt lout rout yt yout by_y
                   Hne Hs Hm Hn Hl IHl Hr IHr Hy Hby];
    [exact I|].
  cbn [balanced_x]. repeat split; try assumption;
    try exact (built_y_balanced _ _ _ Hy);
    rewrite (built_x_size _ _ _ _ _ _ Hl), (built_x_size _ _ _ _ _ _ Hr);
    subst mid; apply slices_balanced; subst sorted;
    now apply list_sort_nonempty.
Qed.

(** The tree on y of a node: its points, read from left to right, are the
    node's list sorted by y, and its root carries the node's diagram. *)
Lemma built_x_range_tree_on_y points t out :
  built_x points t out ->
  medians_y (node_range_tree_on_y t) = node_points_sorted_by_y t /\
  size_y (node_range_tree_on_y t) = size_x t /\
  node_voronoi_y (node_range_tree_on_y t) = node_voronoi t /\
  balanced_y (node_range_tree_on_y t) /\
  ordered_y (node_range_tree_on_y t).
Proof.
  intros B.
  pose proof (built_x_size _ _ _ _ _ _ B) as Hsize.
  destruct B as [|points sorted mid point lt rt lout rout yt yout by_y
                  Hne Hs Hm Hn Hl Hr Hy Hby];
    [repeat split|].
  cbn [node_range_tree_on_y node_points_sorted_by_y node_voronoi].
  split; [|split; [|split; [|split]]].
  - rewrite (built_y_inorder _ _ _ Hy). now subst.
  - rewrite (built_y_size _ _ _ _ _ _ Hy), Hsize. subst sorted.
    apply list_sort_length.
  - inversion Hy as [|? ? ? ? ? ? ? ? Hne' Hs' Hm' Hn' Hl' Hr']; subst.
    + exfalso. now apply (list_sort_nonempty key_x points Hne).
    + reflexivity.
  - exact (built_y_balanced _ _ _ Hy).
  - exact (built_y_ordered _ _ _ _ _ _ Hy).
Qed.

End TreeFacts.

(** ** Height of a balanced tree *)

Section HeightFacts.

Variable Diagram : Type.

Lemma height_x_ge (t : tree_x Diagram) : (-1 <= height_x t)%Z.
Proof. induction t; cbn [height_x]; lia. Qed.

Lemma size_x_zero (t : tree_x Diagram) : size_x t = 0 -> t = NoneX Diagram.
Proof. destruct t; simpl; [reflexivity|lia]. Qed.

Lemma balanced_x_height (t : tree_x Diagram) :
  balanced_x t -> t <> NoneX Diagram ->
  (2 ^ height_x t <= Z.of_nat (size_x t) < 2 ^ (height_x t + 1))%Z.
Proof.
  induction t as [|point l IHl r IHr yt by_y v]; intros Hb Hne;
    [congruence|].
  cbn [balanced_x] in Hb. destruct Hb as (Hsz & Hbl & Hbr & _).
  cbn [height_x size_x].
  pose proof (height_x_ge l) as Hhl. pose proof (height_x_ge r) as Hhr.
  destruct l as [|pl ll lr lyt lby lv].
  - assert (Hr0 : size_x r = 0) by (simpl in Hsz; lia).
    apply size_x_zero in Hr0. subst r.
    vm_compute. split; [discriminate|reflexivity].
  - remember (DictX pl ll lr lyt lby lv) as lt eqn:Elt.
    assert (Hl : (2 ^ height_x lt <= Z.of_nat (size_x lt)
                  < 2 ^ (height_x lt + 1))%Z)
      by (apply IHl; [exact Hbl|subst lt; discriminate]).
    assert (H0 : (0 <= height_x lt)%Z).
    { subst lt. cbn [height_x].
      pose proof (height_x_ge ll). pose proof (height_x_ge lr). lia. }
    assert (Hle : (height_x r <= height_x lt)%Z).
    { destruct r as [|pr rl rr ryt rby rv]; [cbn [height_x]; lia|].
      remember (DictX pr rl rr ryt rby rv) as rt eqn:Ert.
      assert (Hr : (2 ^ height_x rt <= Z.of_nat (size_x rt)
                    < 2 ^ (height_x rt + 1))%Z)
        by (apply IHr; [exact Hbr|subst rt; discriminate]).
      assert (Hlt : (2 ^ height_x rt < 2 ^ (height_x lt + 1))%Z) by lia.
      apply Z.pow_lt_mono_r_iff in Hlt; lia. }
    rewrite Z.max_l by exact Hle.
    replace (1 + height_x lt + 1)%Z with (Z.succ (Z.succ (height_x lt)))
      by lia.
    replace (1 + height_x lt)%Z with (Z.succ (height_x lt)) by lia.
    replace (height_x lt + 1)%Z with (Z.succ (height_x lt)) in Hl by lia.
    rewrite !Z.pow_succ_r by lia. rewrite Z.pow_succ_r in Hl by lia.
    lia.
Qed.

(** The nodes a query visits are nodes of the tree. *)
Lemma visited_path_nodes (t : tree_x Diagram) (target : Node) :
  incl (visited_path t target) (nodes_x t).
Proof.
  induction t as [|point l IHl r IHr yt by_y v]; [intros ? []|].
  cbn [visited_path nodes_x]. intros node [<-|Hin]; [now left|].
  right. apply in_or_app.
  destruct (key_x target <=? key_x point)%Z; [left; now apply IHl|].
  right; now apply IHr.
Qed.

(** In a search tree, a query for an x coordinate that occurs in the tree
    visits a node holding a point of that x coordinate. *)
Lemma visited_path_finds (t : tree_x Diagram) (target : Node) :
  ordered_x t ->
  (exists p, In p (medians_x t) /\ key_x p = key_x target) ->
  exists node q,
    In node (visited_path t target) /\
    node_point node = Some q /\ key_x q = key_x target.
Proof.
  induction t as [|point l IHl r IHr yt by_y v];
    intros Ho (p & Hin & Hk); [destruct Hin|].
  cbn [ordered_x] in Ho. destruct Ho as (Hlo & Hhi & Hol & Hor & _).
  cbn [medians_x] in Hin. cbn [visited_path].
  rewrite Forall_forall in Hlo, Hhi.
  apply in_app_or in Hin.
  destruct (key_x target <=? key_x point)%Z eqn:E.
  - apply Z.leb_le in E.
    destruct Hin as [Hin|[->|Hin]].
    + destruct (IHl Hol (ex_intro _ p (conj Hin Hk))) as (node & q & Hn & Hq).
      exists node, q. split; [now right|exact Hq].
    + eexists _, p. split; [now left|]. split; [reflexivity|exact Hk].
    + specialize (Hhi p Hin).
      eexists _, point. split; [now left|]. split; [reflexivity|lia].
  - apply Z.leb_gt in E.
    destruct Hin as [Hin|[->|Hin]].
    + specialize (Hlo p Hin). lia.
    + lia.
    + destruct (IHr Hor (ex_intro _ p (conj Hin Hk))) as (node & q & Hn & Hq).
      exists node, q. split; [now right|exact Hq].
Qed.

End HeightFacts.

(** ** The built tree as a balanced search tree *)

(** X1: read from left to right, the points in the nodes of the primary tree
    are the input in its stable ascending order of feature x. *)
Theorem inorder_is_sorted_input (Diagram Exception : Type)
    (Voronoi : list (Z * Z) -> Diagram + Exception) (points : list Node) :
  exists t final out,
    RangeTree2D Voronoi points = Ok (t, final, out) /\
    medians_x t = list_sort key_x points.
Proof.
  destruct (RangeTree2D_built _ _ Voronoi points) as (t & out & E & B).
  eexists t, _, out. split; [exact E|].
  exact (built_x_inorder _ _ _ _ _ _ B).
Qed.

(** X2: at every primary node the tree on y has one node per point of the
    node's subset, and its points read from left to right are exactly the
    node's [points_sorted_by_y]. *)
Theorem range_tree_on_y_covers_node (Diagram Exception : Type)
    (Voronoi : list (Z * Z) -> Diagram + Exception) (points : list Node) :
  exists t final out,
    RangeTree2D Voronoi points = Ok (t, final, out) /\
    Forall (fun node =>
              size_y (node_range_tree_on_y node) = size_x node /\
              medians_y (node_range_tree_on_y node) =
                node_points_sorted_by_y node)
           (nodes_x t).
Proof.
  destruct (RangeTree2D_built _ _ Voronoi points) as (t & out & E & B).
  eexists t, _, out. split; [exact E|].
  eapply Forall_impl; [|exact (built_x_nodes _ _ _ _ _ _ B)].
  intros node (subset & sout & Bn).
  destruct (built_x_range_tree_on_y _ _ _ _ _ _ Bn) as (Hm & Hs & _).
  now split.
Qed.

(** X3: every built tree is balanced: at every node of the primary tree and
    of every tree on y, the left subtree has as many nodes as the right
    subtree or one more. *)
Theorem built_tree_balanced (Diagram Exception : Type)
    (Voronoi : list (Z * Z) -> Diagram + Exception) (points : list Node) :
  exists t final out,
    RangeTree2D Voronoi points = Ok (t, final, out) /\ balanced_x t.
Proof.
  destruct (RangeTree2D_built _ _ Voronoi points) as (t & out & E & B).
  eexists t, _, out. split; [exact E|exact (built_x_balanced _ _ _ _ _ _ B)].
Qed.

(** The height of the tree built from a non-empty list. *)
Lemma built_tree_height_aux (Diagram Exception : Type)
    (Voronoi : list (Z * Z) -> Diagram + Exception) (points : list Node) :
  0 < length points ->
  exists t out,
    RangeTree2D Voronoi points =
      Ok (t, list_sort key_y (list_sort key_x points), out) /\
    t <> NoneX Diagram /\
    (2 ^ height_x t <= Z.of_nat (length points) < 2 ^ (height_x t + 1))%Z.
Proof.
  intros Hlen.
  destruct (RangeTree2D_built _ _ Voronoi points) as (t & out & E & B).
  exists t, out. split; [exact E|].
  pose proof (built_x_size _ _ _ _ _ _ B) as Hsize.
  assert (Hne : t <> NoneX Diagram).
  { intros ->. simpl in Hsize. lia. }
  split; [exact Hne|].
  rewrite <- Hsize.
  exact (balanced_x_height _ t (built_x_balanced _ _ _ _ _ _ B) Hne).
Qed.

(** X4: the tree built from n >= 1 points has height h with
    2^h <= n < 2^(h+1), that is h = floor(log2 n). *)
Theorem built_tree_height (Diagram Exception : Type)
    (Voronoi : list (Z * Z) -> Diagram + Exception) (points : list Node) :
  0 < length points ->
  exists t final out,
    RangeTree2D Voronoi points = Ok (t, final, out) /\
    (2 ^ height_x t <= Z.of_nat (length points) < 2 ^ (height_x t + 1))%Z /\
    height_x t = Z.log2 (Z.of_nat (length points)).
Proof.
  intros Hlen.
  destruct (built_tree_height_aux _ _ Voronoi points Hlen)
    as (t & out & E & Hne & Hh).
  eexists t, _, out. split; [exact E|]. split; [exact Hh|].
  symmetry. apply Z.log2_unique; [|exact Hh].
  destruct t as [|p l r yt by_y v]; [congruence|]. cbn [height_x].
  pose proof (height_x_ge _ l). pose proof (height_x_ge _ r). lia.
Qed.

(** Three points give a tree of height 1. *)
Lemma built_tree_height_witness :
  0 < length [pt 0 0; pt 1 0; pt 2 0] /\
  exists t final out,
    RangeTree2D voronoi_ok [pt 0 0; pt 1 0; pt 2 0] = Ok (t, final, out) /\
    height_x t = 1%Z.
Proof.
  assert (H : 0 < length [pt 0 0; pt 1 0; pt 2 0]) by (simpl; lia).
  split; [exact H|].
  destruct (built_tree_height _ _ voronoi_ok [pt 0 0; pt 1 0; pt 2 0] H)
    as (t & final & out & E & _ & Hh).
  exists t, final, out. split; [exact E|exact Hh].
Defined.

(** X5: a query on the tree built from n >= 1 points visits at least the
    root and at most floor(log2 n) + 1 nodes: with v nodes visited,
    2^(v-1) <= n. *)
Theorem query_visits_logarithmic (Diagram Exception : Type)
    (Voronoi : list (Z * Z) -> Diagram + Exception)
    (points : list Node) (target : Node) :
  0 < length points ->
  exists t final out,
    RangeTree2D Voronoi points = Ok (t, final, out) /\
    1 <= length (_query_tree t target []) /\
    2 ^ (length (_query_tree t target []) - 1) <= length points.
Proof.
  intros Hlen.
  destruct (built_tree_height_aux _ _ Voronoi points Hlen)
    as (t & out & E & Hne & Hh).
  eexists t, _, out. split; [exact E|].
  rewrite (_query_tree_visited _ t target []). cbn [app].
  pose proof (visited_path_height _ t target) as Hv.
  assert (H1 : 1 <= length (visited_path t target)).
  { destruct t; [congruence|]. cbn [visited_path length]. lia. }
  split; [exact H1|].
  apply Nat2Z.inj_le. rewrite Nat2Z.inj_pow.
  eapply Z.le_trans; [|exact (proj1 Hh)].
  apply Z.pow_le_mono_r; lia.
Qed.

(** Three points: a query visits one or two nodes. *)
Lemma query_visits_logarithmic_witness :
  0 < length [pt 0 0; pt 1 0; pt 2 0] /\
  exists t final out,
    RangeTree2D voronoi_ok [pt 0 0; pt 1 0; pt 2 0] = Ok (t, final, out) /\
    2 ^ (length (_query_tree t (pt 5 5) []) - 1) <= 3.
Proof.
  assert (H : 0 < length [pt 0 0; pt 1 0; pt 2 0]) by (simpl; lia).
  split; [exact H|].
  destruct (query_visits_logarithmic _ _ voronoi_ok
              [pt 0 0; pt 1 0; pt 2 0] (pt 5 5) H)
    as (t & final & out & E & _ & Hv).
  exists t, final, out. split; [exact E|exact Hv].
Defined.

(** ** Queries on a built tree *)

(** X6: when some input point has the target's feature x, the query visits
    a node whose point has that feature x. *)
Theorem query_finds_x (Diagram Exception : Type)
    (Voronoi : list (Z * Z) -> Diagram + Exception)
    (points : list Node) (target p : Node) :
  In p points -> key_x p = key_x target ->
  exists t final out node q,
    RangeTree2D Voronoi points = Ok (t, final, out) /\
    In node (_query_tree t target []) /\
    node_point node = Some q /\
    key_x q = key_x target.
Proof.
  intros Hin Hk.
  destruct (RangeTree2D_built _ _ Voronoi points) as (t & out & E & B).
  destruct (visited_path_finds _ t target (built_x_ordered _ _ _ _ _ _ B))
    as (node & q & Hn & Hq & Hkq).
  { exists p. split; [|exact Hk].
    eapply Permutation_in; [|exact Hin].
    apply Permutation_sym, (built_x_medians _ _ _ _ _ _ B). }
  eexists t, _, out, node, q. split; [exact E|].
  rewrite (_query_tree_visited _ t target []). cbn [app]. auto.
Qed.

(** Among (0,0), (1,5), (2,0), the query for x = 1 reaches the point (1,5). *)
Lemma query_finds_x_witness :
  In (pt 1 5) [pt 0 0; pt 1 5; pt 2 0] /\
  key_x (pt 1 5) = key_x (pt 1 9) /\
  exists t final out node q,
    RangeTree2D voronoi_ok [pt 0 0; pt 1 5; pt 2 0] = Ok (t, final, out) /\
    In node (_query_tree t (pt 1 9) []) /\
    node_point node = Some q /\
    key_x q = key_x (pt 1 9).
Proof.
  assert (H1 : In (pt 1 5) [pt 0 0; pt 1 5; pt 2 0]) by (simpl; auto).
  assert (H2 : key_x (pt 1 5) = key_x (pt 1 9)) by reflexivity.
  split; [exact H1|]. split; [exact H2|].
  exact (query_finds_x _ _ voronoi_ok [pt 0 0; pt 1 5; pt 2 0]
           (pt 1 9) (pt 1 5) H1 H2).
Defined.

(** X7: every diagram that a query on a built tree plots is the answer of
    the geometry service on exactly the plotted real-space points, there
    are at least 4 of them, and the query point is shown with it. *)
Theorem query_plots_faithful (Diagram Exception : Type)
    (Voronoi : list (Z * Z) -> Diagram + Exception)
    (points : list Node) (target : Node) :
  exists t final out,
    RangeTree2D Voronoi points = Ok (t, final, out) /\
    Forall (faithful_plot Voronoi target)
           (fst (@query Diagram Exception t target)).
Proof.
  destruct (RangeTree2D_built _ _ Voronoi points) as (t & out & E & B).
  eexists t, _, out. split; [exact E|].
  unfold query. cbn [fst]. constructor; [exact I|].
  rewrite (_query_tree_visited _ t target []). cbn [app].
  apply Forall_flat_map. apply Forall_forall. intros node Hin.
  apply visited_path_nodes in Hin.
  pose proof (built_x_nodes _ _ _ _ _ _ B) as Hnodes.
  rewrite Forall_forall in Hnodes.
  destruct (Hnodes node Hin) as (subset & sout & Bn).
  rewrite (built_x_points_sorted_by_y _ _ _ _ _ _ Bn).
  rewrite (built_x_voronoi _ _ _ _ _ _ Bn).
  set (by_y := list_sort key_y (list_sort key_x subset)).
  unfold _visualize_voronoi, diagram_of.
  destruct (length by_y <? 4) eqn:E4; [repeat constructor|].
  apply Nat.ltb_ge in E4.
  destruct (Voronoi (real_points_as_float by_y)) as [vor|e] eqn:Ev;
    [|repeat constructor].
  constructor; [exact I|]. constructor; [|constructor].
  cbn [faithful_plot]. unfold real_points_as_float at 1.
  rewrite length_map. auto.
Qed.

(** X10: at every primary node the diagram is the one at the root of the
    node's tree on y, and the node has a diagram exactly when its subset
    has at least 4 points and the geometry service answers on the real
    coordinates of the subset taken in the order of feature y. *)
Theorem node_diagram_characterised (Diagram Exception : Type)
    (Voronoi : list (Z * Z) -> Diagram + Exception) (points : list Node) :
  exists t final out,
    RangeTree2D Voronoi points = Ok (t, final, out) /\
    Forall (fun node =>
              node_voronoi_y (node_range_tree_on_y node) = node_voronoi node /\
              forall vor,
                node_voronoi node = Some vor <->
                4 <= length (node_points_sorted_by_y node) /\
                Voronoi (real_points_as_float (node_points_sorted_by_y node))
                = inl vor)
           (nodes_x t).
Proof.
  destruct (RangeTree2D_built _ _ Voronoi points) as (t & out & E & B).
  eexists t, _, out. split; [exact E|].
  eapply Forall_impl; [|exact (built_x_nodes _ _ _ _ _ _ B)].
  intros node (subset & sout & Bn).
  destruct (built_x_range_tree_on_y _ _ _ _ _ _ Bn) as (_ & _ & Hv & _).
  split; [exact Hv|]. intros vor.
  rewrite (built_x_points_sorted_by_y _ _ _ _ _ _ Bn).
  rewrite (built_x_voronoi _ _ _ _ _ _ Bn).
  set (by_y := list_sort key_y (list_sort key_x subset)).
  unfold diagram_of.
  destruct (length by_y <? 4) eqn:E4.
  - apply Nat.ltb_lt in E4. split; [discriminate|lia].
  - apply Nat.ltb_ge in E4.
    destruct (Voronoi (real_points_as_float by_y)) as [vor'|e].
    + split; [intros [= ->]; auto|intros [_ [= ->]]; reflexivity].
    + split; [discriminate|intros [_ H]; discriminate].
Qed.

(** ** The build and the order of its input *)

(** The outcome of a build depends on the input through its order of
    feature x only. *)
Lemma RangeTree2D_sorted (Diagram Exception : Type)
    (Voronoi : list (Z * Z) -> Diagram + Exception)
    (points points' : list Node) :
  list_sort key_x points = list_sort key_x points' ->
  RangeTree2D Voronoi points = RangeTree2D Voronoi points'.
Proof.
  intros Hs.
  assert (Hlen : length points = length points').
  { now rewrite <- (list_sort_length key_x points), Hs, list_sort_length. }
  destruct (list_eq_dec_nil _ points) as [->|Hne].
  - destruct points'; [reflexivity|discriminate].
  - assert (Hne' : points' <> []).
    { intros ->. destruct points; [congruence|discriminate]. }
    unfold RangeTree2D.
    rewrite (_build_tree_on_x_S _ _ Voronoi _ _ Hne).
    rewrite (_build_tree_on_x_S _ _ Voronoi _ _ Hne').
    now rewrite Hs, Hlen.
Qed.

(** X8: when the feature x coordinates of the input are pairwise distinct,
    the order of the input does not matter: any rearrangement of the list
    gives the same tree, the same final list and the same output. *)
Theorem build_order_independent (Diagram Exception : Type)
    (Voronoi : list (Z * Z) -> Diagram + Exception)
    (points points' : list Node) :
  Permutation points points' -> NoDup (map key_x points) ->
  RangeTree2D Voronoi points = RangeTree2D Voronoi points'.
Proof.
  intros Hp Hnd. apply RangeTree2D_sorted.
  now apply list_sort_Permutation.
Qed.

(** The two orders of (0,1) and (1,0). *)
Lemma build_order_independent_witness :
  Permutation [pt 0 1; pt 1 0] [pt 1 0; pt 0 1] /\
  NoDup (map key_x [pt 0 1; pt 1 0]) /\
  RangeTree2D voronoi_ok [pt 0 1; pt 1 0] =
  RangeTree2D voronoi_ok [pt 1 0; pt 0 1].
Proof.
  assert (Hp : Permutation [pt 0 1; pt 1 0] [pt 1 0; pt 0 1])
    by apply perm_swap.
  assert (Hnd : NoDup (map key_x [pt 0 1; pt 1 0])).
  { repeat constructor; simpl; intuition discriminate. }
  split; [exact Hp|]. split; [exact Hnd|].
  exact (build_order_independent _ _ voronoi_ok _ _ Hp Hnd).
Defined.

(** X9: a second build from the list as the first build left it leaves the
    list as it is: the reordering of the caller's list happens once. *)
Theorem second_build_keeps_list (Diagram Exception : Type)
    (Voronoi : list (Z * Z) -> Diagram + Exception) (points : list Node) :
  exists t1 final out1 t2 out2,
    RangeTree2D Voronoi points = Ok (t1, final, out1) /\
    RangeTree2D Voronoi final = Ok (t2, final, out2).
Proof.
  destruct (RangeTree2D_built _ _ Voronoi points) as (t1 & out1 & E1 & _).
  destruct (RangeTree2D_built _ _ Voronoi
              (list_sort key_y (list_sort key_x points)))
    as (t2 & out2 & E2 & _).
  eexists t1, _, out1, t2, out2. split; [exact E1|].
  rewrite E2. do 2 f_equal. f_equal.
  apply stable_sorted_unique with (key := key_y);
    try apply list_sort_sorted.
  intros k. rewrite !list_sort_stable.
  rewrite (filter_list_sort key_x _ (list_sort key_y _)), list_sort_stable.
  rewrite !(filter_list_sort key_x).
  apply list_sort_id, list_sort_sorted.
Qed.

(** ** Printing points *)

Lemma append_assoc (s1 s2 s3 : string) :
  ((s1 ++ s2) ++ s3 = s1 ++ (s2 ++ s3))%string.
Proof. induction s1 as [|c s1 IH]; simpl; [reflexivity|now rewrite IH]. Qed.

Lemma append_empty_r (s : string) : (s ++ "")%string = s.
Proof. induction s as [|c s IH]; simpl; [reflexivity|now rewrite IH]. Qed.

Lemma plain_string_of_uint (d : Decimal.uint) :
  plain (NilEmpty.string_of_uint d).
Proof. induction d; simpl; repeat split; try discriminate; assumption. Qed.

Lemma plain_repr_int (n : Z) : plain (repr_int n).
Proof.
  unfold repr_int. destruct (Z.to_int n); simpl;
    repeat split; try discriminate; apply plain_string_of_uint.
Qed.

Lemma repr_int_inj (n m : Z) : repr_int n = repr_int m -> n = m.
Proof.
  unfold repr_int. intros H.
  apply (f_equal NilEmpty.int_of_string) in H.
  rewrite !NilEmpty.isi in H. injection H as H.
  apply (f_equal Z.of_int) in H. now rewrite !DecimalZ.of_to in H.
Qed.

(** A plain string is delimited by the first delimiter after it. *)
Lemma plain_split (s1 : string) :
  forall (s2 : string) (c1 c2 : ascii) (r1 r2 : string),
    plain s1 -> plain s2 ->
    c1 = ","%char \/ c1 = ")"%char ->
    c2 = ","%char \/ c2 = ")"%char ->
    (s1 ++ String c1 r1)%string = (s2 ++ String c2 r2)%string ->
    s1 = s2 /\ c1 = c2 /\ r1 = r2.
Proof.
  induction s1 as [|a s1 IH]; intros [|b s2] c1 c2 r1 r2 P1 P2 D1 D2 E;
    simpl in *.
  - injection E as -> ->. auto.
  - injection E as -> ->. destruct P2 as (? & ? & _).
    destruct D1; congruence.
  - injection E as -> _. destruct P1 as (? & ? & _).
    destruct D2; congruence.
  - injection E as -> E. destruct P1 as (_ & _ & P1), P2 as (_ & _ & P2).
    destruct (IH _ _ _ _ _ P1 P2 D1 D2 E) as (-> & -> & ->). auto.
Qed.

Lemma Point_repr_append (p : Point) (rest : string) :
  (Point_repr p ++ rest)%string =
  ("Point(" ++ repr_int (x p)
            ++ String "," (String " " (repr_int (y p) ++ String ")" rest)))
  %string.
Proof.
  unfold Point_repr. simpl. rewrite append_assoc. simpl.
  now rewrite append_assoc.
Qed.

(** What follows a printed point starts after its closing parenthesis. *)
Lemma Point_repr_prefix (p p' : Point) (rest rest' : string) :
  (Point_repr p ++ rest)%string = (Point_repr p' ++ rest')%string ->
  p = p' /\ rest = rest'.
Proof.
  rewrite !Point_repr_append. simpl. intros H.
  injection H as H.
  apply plain_split in H; auto using plain_repr_int.
  destruct H as (Hx & _ & H). injection H as H.
  apply plain_split in H; auto using plain_repr_int.
  destruct H as (Hy & _ & Hr).
  apply repr_int_inj in Hx, Hy.
  destruct p, p'; simpl in *; subst. auto.
Qed.

(** X13: a point can be read back from what [Point.__repr__] prints:
    two points that print the same are equal. *)
Theorem Point_repr_injective (p p' : Point) :
  Point_repr p = Point_repr p' -> p = p'.
Proof.
  intros H.
  apply (Point_repr_prefix p p' "" "").
  now rewrite !append_empty_r.
Qed.

Lemma Point_repr_injective_witness :
  Point_repr (mkPoint (-3) 6) = "Point(-3, 6)"%string /\
  mkPoint (-3) 6 = mkPoint (-3) 6.
Proof.
  split; [reflexivity|].
  exact (Point_repr_injective (mkPoint (-3) 6) (mkPoint (-3) 6) eq_refl).
Defined.

Lemma append_cancel_l (pre s s' : string) :
  (pre ++ s)%string = (pre ++ s')%string -> s = s'.
Proof.
  induction pre as [|c pre IH]; simpl; intros H; [exact H|].
  apply IH. now inversion H.
Qed.

(** X14: likewise for [Node.__repr__]: two dual points that print the same
    have the same feature position and the same real position. *)
Theorem Node_repr_injective (n n' : Node) :
  Node_repr n = Node_repr n' -> n = n'.
Proof.
  unfold Node_repr. intros H.
  apply append_cancel_l in H.
  apply Point_repr_prefix in H. destruct H as [Hf H].
  apply append_cancel_l in H.
  apply Point_repr_prefix in H. destruct H as [Hr _].
  destruct n, n'; simpl in *; subst. reflexivity.
Qed.

Lemma Node_repr_injective_witness :
  Node_repr (make_node (-3, 6)%Z (2, 8)%Z) =
    "Node(Point(-3, 6), Point(2, 8))"%string /\
  make_node (-3, 6)%Z (2, 8)%Z = make_node (-3, 6)%Z (2, 8)%Z.
Proof.
  split; [reflexivity|].
  exact (Node_repr_injective _ _ eq_refl).
Defined.

(** ** The longest descent *)

Section LeftSpine.

Variable Diagram : Type.

(** In a balanced tree the left subtree is at least as high as the right. *)
Lemma balanced_x_left_higher (point : Node) (l r : tree_x Diagram) yt by_y v :
  balanced_x (DictX point l r yt by_y v) ->
  (height_x r <= height_x l)%Z.
Proof.
  cbn [balanced_x]. intros (Hsz & Hbl & Hbr & _).
  destruct r as [|pr rl rr ryt rby rv];
    [cbn [height_x]; apply height_x_ge|].
  remember (DictX pr rl rr ryt rby rv) as rt eqn:Ert.
  assert (Hr : (2 ^ height_x rt <= Z.of_nat (size_x rt)
                < 2 ^ (height_x rt + 1))%Z)
    by (apply balanced_x_height; [exact Hbr|subst rt; discriminate]).
  assert (Hsr : 1 <= size_x rt) by (subst rt; simpl; lia).
  assert (Hl : (2 ^ height_x l <= Z.of_nat (size_x l)
                < 2 ^ (height_x l + 1))%Z).
  { apply balanced_x_height; [exact Hbl|].
    intros ->. simpl in Hsz. lia. }
  assert (Hlt : (2 ^ height_x rt < 2 ^ (height_x l + 1))%Z) by lia.
  pose proof (height_x_ge _ l).
  apply Z.pow_lt_mono_r_iff in Hlt; lia.
Qed.

Lemma visited_path_left_spine (t : tree_x Diagram) (target : Node) :
  balanced_x t ->
  Forall (fun p => (key_x target <= key_x p)%Z) (medians_x t) ->
  (Z.of_nat (length (visited_path t target)) = height_x t + 1)%Z.
Proof.
  induction t as [|point l IHl r IHr yt by_y v]; intros Hb Hall;
    [reflexivity|].
  pose proof (balanced_x_left_higher _ _ _ _ _ _ Hb) as Hle.
  cbn [balanced_x] in Hb. destruct Hb as (_ & Hbl & _).
  cbn [medians_x] in Hall. apply Forall_app in Hall.
  destruct Hall as [Hl Hr]. inversion Hr as [|? ? Hp _]; subst.
  cbn [visited_path height_x length].
  apply Z.leb_le in Hp. rewrite Hp.
  specialize (IHl Hbl Hl). lia.
Qed.

End LeftSpine.

(** X11: the bound h + 1 on the visited nodes is attained: a query whose
    feature x is not above that of any input point visits exactly h + 1
    nodes, where h is the height of the tree. *)
Theorem query_leftmost_longest (Diagram Exception : Type)
    (Voronoi : list (Z * Z) -> Diagram + Exception)
    (points : list Node) (target : Node) :
  Forall (fun p => (key_x target <= key_x p)%Z) points ->
  exists t final out,
    RangeTree2D Voronoi points = Ok (t, final, out) /\
    (Z.of_nat (length (_query_tree t target [])) = height_x t + 1)%Z.
Proof.
  intros Hall.
  destruct (RangeTree2D_built _ _ Voronoi points) as (t & out & E & B).
  eexists t, _, out. split; [exact E|].
  rewrite (_query_tree_visited _ t target []). cbn [app].
  apply visited_path_left_spine; [exact (built_x_balanced _ _ _ _ _ _ B)|].
  eapply Permutation_Forall; [|exact Hall].
  apply Permutation_sym, (built_x_medians _ _ _ _ _ _ B).
Qed.

(** Among (0,0), (1,0), (2,0), (3,0) the query for x = 0. *)
Lemma query_leftmost_longest_witness :
  Forall (fun p => (key_x (pt 0 7) <= key_x p)%Z)
         [pt 0 0; pt 1 0; pt 2 0; pt 3 0] /\
  exists t final out,
    RangeTree2D voronoi_ok [pt 0 0; pt 1 0; pt 2 0; pt 3 0] =
      Ok (t, final, out) /\
    (Z.of_nat (length (_query_tree t (pt 0 7) [])) = height_x t + 1)%Z.
Proof.
  assert (H : Forall (fun p => (key_x (pt 0 7) <= key_x p)%Z)
                     [pt 0 0; pt 1 0; pt 2 0; pt 3 0]).
  { repeat constructor; vm_compute; discriminate. }
  split; [exact H|].
  exact (query_leftmost_longest _ _ voronoi_ok _ (pt 0 7) H).
Defined.

(** ** The entry point keeps the pairs together *)

Lemma combine_nth_error_inv (A B : Type) (l : list A) (l' : list B) :
  forall i a b,
    nth_error (combine l l') i = Some (a, b) ->
    nth_error l i = Some a /\ nth_error l' i = Some b.
Proof.
  revert l'. induction l as [|c l IH]; intros [|c' l'] [|i] a b H;
    simpl in *; try discriminate.
  - now inversion H.
  - now apply IH.
Qed.

(** X12: when the feature-space list is not longer than the real-space
    list, every point stored in the tree pairs the feature coordinate and
    the real coordinate of one index of the two input lists. *)
Theorem main_tree_keeps_pairs (Diagram Exception : Type)
    (Voronoi : list (Z * Z) -> Diagram + Exception)
    (feature_space real_space : list (Z * Z)) :
  length feature_space <= length real_space ->
  exists t final out,
    main_tree Voronoi feature_space real_space = Ok (t, final, out) /\
    Forall (fun p =>
              exists i f r,
                nth_error feature_space i = Some f /\
                nth_error real_space i = Some r /\
                p = make_node f r)
           (medians_x t) /\
    Forall (fun p =>
              exists i f r,
                nth_error feature_space i = Some f /\
                nth_error real_space i = Some r /\
                p = make_node f r)
           final.
Proof.
  intros Hlen. unfold main_tree, main_points.
  rewrite (main_loop_pairs _ _ Hlen (length feature_space) 0 []) by lia.
  cbn [app skipn].
  set (points := map (fun fr => make_node (fst fr) (snd fr))
                     (combine feature_space real_space)).
  assert (Hpairs : Forall (fun p =>
              exists i f r,
                nth_error feature_space i = Some f /\
                nth_error real_space i = Some r /\
                p = make_node f r) points).
  { apply Forall_forall. intros p Hin. unfold points in Hin.
    apply in_map_iff in Hin. destruct Hin as ([f r] & <- & Hin).
    apply In_nth_error in Hin. destruct Hin as [i Hi].
    apply combine_nth_error_inv in Hi. destruct Hi as [Hf Hr].
    exists i, f, r. auto. }
  destruct (RangeTree2D_built _ _ Voronoi points) as (t & out & E & B).
  eexists t, _, out. split; [exact E|]. split.
  - eapply Permutation_Forall; [|exact Hpairs].
    apply Permutation_sym, (built_x_medians _ _ _ _ _ _ B).
  - eapply Permutation_Forall; [|exact Hpairs].
    eapply perm_trans; apply list_sort_perm.
Qed.

(** The program's own lists. *)
Lemma main_tree_keeps_pairs_witness :
  length feature_space <= length real_space /\
  exists t final out,
    main_tree voronoi_ok feature_space real_space = Ok (t, final, out) /\
    length (medians_x t) = 15.
Proof.
  assert (H : length feature_space <= length real_space) by (simpl; lia).
  split; [exact H|].
  destruct (main_tree_keeps_pairs _ _ voronoi_ok feature_space real_space H)
    as (t & final & out & E & _ & _).
  exists t, final, out. split; [exact E|].
  vm_compute in E. injection E as <- _ _. reflexivity.
Defined.

(** ** What the build prints *)

Section BuildLog.

Variable Diagram : Type.
Variable Exception : Type.
Variable Voronoi : list (Z * Z) -> Diagram + Exception.

Lemma diagram_log_faithful (points : list Node) :
  Forall (faithful_failure Voronoi) (diagram_log Voronoi points).
Proof.
  unfold diagram_log. destruct (length points <? 4) eqn:E4; [constructor|].
  apply Nat.ltb_ge in E4.
  destruct (Voronoi (real_points_as_float points)) as [vor|e] eqn:Ev;
    [constructor|].
  constructor; [|constructor]. cbn [faithful_failure]. auto.
Qed.

Lemma built_y_log_faithful points t out :
  built_y Voronoi points t out -> Forall (faithful_failure Voronoi) out.
Proof.
  induction 1; [constructor|].
  rewrite !Forall_app. auto using diagram_log_faithful.
Qed.

Lemma built_x_log_faithful points t out :
  built_x Voronoi points t out -> Forall (faithful_failure Voronoi) out.
Proof.
  induction 1; [constructor|].
  rewrite !Forall_app.
  eauto using diagram_log_faithful, built_y_log_faithful.
Qed.

End BuildLog.

(** X15: every message that a build prints reports a list of at least 4
    points on whose real coordinates the geometry service raised the
    reported exception; a build with a service that always answers prints
    nothing. *)
Theorem build_log_faithful (Diagram Exception : Type)
    (Voronoi : list (Z * Z) -> Diagram + Exception) (points : list Node) :
  exists t final out,
    RangeTree2D Voronoi points = Ok (t, final, out) /\
    Forall (faithful_failure Voronoi) out /\
    ((forall real_points, exists vor, Voronoi real_points = inl vor) ->
     out = []).
Proof.
  destruct (RangeTree2D_built _ _ Voronoi points) as (t & out & E & B).
  eexists t, _, out. split; [exact E|].
  pose proof (built_x_log_faithful _ _ _ _ _ _ B) as Hlog.
  split; [exact Hlog|]. intros Hok.
  destruct out as [|e out]; [reflexivity|].
  inversion Hlog as [|? ? He _]; subst.
  destruct e as [pts exc| | | |]; cbn [faithful_failure] in He;
    try contradiction.
  destruct He as [_ He]. destruct (Hok (real_points_as_float pts)) as [vor Hv].
  congruence.
Qed.

(** The program's points with a service that always answers. *)
Lemma build_log_faithful_witness :
  (forall real_points, exists vor, voronoi_ok real_points = inl vor) /\
  exists t final,
    RangeTree2D voronoi_ok [pt 0 0; pt 1 1; pt 2 2; pt 3 3] =
      Ok (t, final, []).
Proof.
  assert (H : forall real_points,
             exists vor, voronoi_ok real_points = inl vor).
  { intros real_points. exists real_points. reflexivity. }
  split; [exact H|].
  destruct (build_log_faithful _ _ voronoi_ok
              [pt 0 0; pt 1 1; pt 2 2; pt 3 3])
    as (t & final & out & E & _ & Hout).
  exists t, final. rewrite <- (Hout H). exact E.
Defined.

(** X16: after a build the caller's list holds exactly the points of the
    root's [points_sorted_by_y], in the same order. *)
Theorem final_list_is_root_points_sorted_by_y (Diagram Exception : Type)
    (Voronoi : list (Z * Z) -> Diagram + Exception) (points : list Node) :
  exists t final out,
    RangeTree2D Voronoi points = Ok (t, final, out) /\
    final = node_points_sorted_by_y t /\
    length final = length points.
Proof.
  destruct (RangeTree2D_built _ _ Voronoi points) as (t & out & E & B).
  eexists t, _, out. split; [exact E|]. split.
  - symmetry. exact (built_x_points_sorted_by_y _ _ _ _ _ _ B).
  - now rewrite !list_sort_length.
Qed.
